(** * pershout: persistence scores from the MST of a k-nearest-neighbour graph

    A shallow embedding of [src/pershout.py].  The script is a straight line
    of assignments over numpy / scipy / scikit-learn values; every assignment
    becomes one definition below, named after the variable it binds.  An
    error monad threads them in the script's order (a Python exception
    aborts the script): [pershout] is lines 13 to 32, where the last
    variable of the core is bound, and [script] is the whole file.

    Numbers.  The script computes with float64.  The model computes with
    exact rationals [Q]; the only place where the script leaves the finite
    numbers is the division of line 32, whose IEEE results for a zero
    denominator ([nan], [inf], [-inf]) are kept by the type [score].
    Rounding, overflow and underflow are not modelled.

    Sparse matrices.  A scipy CSR matrix is the list of its stored entries in
    storage order; an entry can be stored with weight 0 (an "explicit zero"),
    which is what [G.data == 0], [eliminate_zeros] and [getnnz] are about. *)

From Stdlib Require Import List Arith ZArith QArith Qabs Qminmax Bool Lia Lqa.
From Stdlib Require Import Permutation Sorted.
Import ListNotations.

Local Open Scope Q_scope.

(** ** Exceptions *)

(** The exceptions of the script.  The first four are [ValueError]s of
    library calls: Python tells them apart by the line that raises, and the
    constructors name these raising sites after the error kind the
    specification gives to the stage.  The last one is the
    [AttributeError] of line 33. *)
Inductive error : Type :=
| InvalidParameter   (* line 13: kneighbors_graph rejects n_neighbors *)
| DegenerateGraph    (* line 16: min() of an empty selection of G.data *)
| DegenerateRange    (* line 24: min() of an empty selection of MST *)
| EmptyRowMinimum    (* line 30: min() of an empty selection of MST[i] *)
| AttributeError.    (* line 33: a tuple has no attribute shape *)

Inductive result (A : Type) : Type :=
| Ok (a : A)
| Err (e : error).
Arguments Ok {A} a.
Arguments Err {A} e.

Definition bind {A B} (r : result A) (k : A -> result B) : result B :=
  match r with
  | Ok a => k a
  | Err e => Err e
  end.

Notation "x <- r ;; k" := (bind r (fun x => k))
  (at level 61, r at next level, right associativity).

Fixpoint mapM {A B} (f : A -> result B) (l : list A) : result (list B) :=
  match l with
  | [] => Ok []
  | a :: t => b <- f a ;; bs <- mapM f t ;; Ok (b :: bs)
  end.

(** ** Numbers and reductions *)

Definition Qltb (x y : Q) : bool := negb (Qle_bool y x).

(** [a.min()] and [a.max()] of numpy: [None] stands for the [ValueError]
    raised on an empty array. *)
Definition min_list (l : list Q) : option Q :=
  match l with
  | [] => None
  | x :: t => Some (fold_left Qmin t x)
  end.

Definition max_list (l : list Q) : option Q :=
  match l with
  | [] => None
  | x :: t => Some (fold_left Qmax t x)
  end.

(** [a[a > 0]] *)
Definition positive (l : list Q) : list Q := filter (Qltb 0) l.

(** ** Sorting

    An insertion sort, which takes equal keys in the order it finds them.
    It orders the candidates of the neighbour search, the stored weights
    inside the spanning-forest routine (the fixed tie order that section 4.3
    of the specification asks for) and the positions of a matrix in
    canonical form.  [np.argsort] itself promises no order for equal keys:
    its default kind is not stable. *)
Section Sorting.
Context {A : Type} (leb : A -> A -> bool).

Fixpoint insert (x : A) (l : list A) : list A :=
  match l with
  | [] => [x]
  | y :: t => if leb x y then x :: y :: t else y :: insert x t
  end.

Fixpoint isort (l : list A) : list A :=
  match l with
  | [] => []
  | x :: t => insert x (isort t)
  end.

End Sorting.

(** [np.argsort(a)]: the positions of [a], ordered by their value; of the
    orders numpy may return for equal keys, the one by position. *)
Definition argsort {A} (leb : A -> A -> bool) (a : list A) : list nat :=
  map fst (isort (fun p q => leb (snd p) (snd q)) (combine (seq 0 (length a)) a)).

(** ** Sparse matrices *)

Record entry : Type := mkEntry { row : nat; col : nat; wt : Q }.

Definition csr : Type := list entry.

Definition set_wt (e : entry) (w : Q) : entry := mkEntry (row e) (col e) w.

(** [M.data] *)
Definition data_of (M : csr) : list Q := map wt M.

(** [M[i]]: the stored entries of row [i]. *)
Definition getrow (M : csr) (i : nat) : csr :=
  filter (fun e => Nat.eqb (row e) i) M.

(** [M.getnnz(1)[i]]: the number of stored entries of row [i], explicit
    zeros included. *)
Definition getnnz (M : csr) (i : nat) : nat := length (getrow M i).

(** [M.eliminate_zeros()] *)
Definition eliminate_zeros (M : csr) : csr :=
  filter (fun e => negb (Qeq_bool (wt e) 0)) M.

(** ** Line 13: the neighbour graph *)

Definition point : Type := list Q.

Definition wt_leb (e f : entry) : bool := Qle_bool (wt e) (wt f).

(** The [k] nearest other points of point [i], nearest first. *)
Definition kneighbors (metric : point -> point -> Q) (k : nat)
    (data : list point) (i : nat) : list entry :=
  let others := filter (fun j => negb (Nat.eqb j i)) (seq 0 (length data)) in
  let cand := map (fun j => mkEntry i j (metric (nth i data []) (nth j data []))) others in
  firstn k (isort wt_leb cand).

(** Modelled from the spec: [kneighbors_graph] is scikit-learn's and not part
    of [src/].  Section 4.1: it fails with InvalidParameter if k < 1 or
    k >= N; otherwise every vertex gets out-degree exactly k, with edges to
    its k closest other points, weight = the metric's pairwise distance, ties
    broken deterministically (here: by index).  As in the library, a row
    stores its entries nearest first. *)
Definition kneighbors_graph (metric : point -> point -> Q) (k : Z)
    (data : list point) : result csr :=
  if ((k <? 1) || (Z.of_nat (length data) <=? k))%Z then Err InvalidParameter
  else Ok (flat_map (kneighbors metric (Z.to_nat k) data) (seq 0 (length data))).

(** ** Lines 16-17: zero weights become [zero_fix] *)

(** [zero_fix = G.data[G.data > 0].min() * 1.e-8] *)
Definition zero_fix (G : csr) : result Q :=
  match min_list (positive (data_of G)) with
  | None => Err DegenerateGraph
  | Some m => Ok (m * (1 # 100000000))
  end.

(** [G.data[G.data == 0] = zero_fix] *)
Definition sanitize (zf : Q) (G : csr) : csr :=
  map (fun e => if Qeq_bool (wt e) 0 then set_wt e zf else e) G.

(** ** Line 20: the spanning forest *)

(** Union-find, abstracted to one component label per vertex. *)
Definition find (c : list nat) (v : nat) : nat := nth v c v.

Definition union (c : list nat) (r1 r2 : nat) : list nat :=
  map (fun l => if Nat.eqb l r2 then r1 else l) c.

(** [data[j] = 0] *)
Fixpoint zero_at (j : nat) (d : csr) : csr :=
  match d, j with
  | [], _ => []
  | e :: t, O => set_wt e 0 :: t
  | e :: t, S j' => e :: zero_at j' t
  end.

(** One turn of Kruskal's loop on the stored entry at position [j]: the entry
    is kept when it joins two components and zeroed when its ends are
    already joined. *)
Definition kruskal_step (st : list nat * csr) (j : nat) : list nat * csr :=
  let (c, d) := st in
  match nth_error d j with
  | None => st
  | Some e =>
      let r1 := find c (row e) in
      let r2 := find c (col e) in
      if Nat.eqb r1 r2 then (c, zero_at j d) else (union c r1 r2, d)
  end.

Definition kruskal_loop (order : list nat) (st : list nat * csr) : list nat * csr :=
  fold_left kruskal_step order st.

(** Modelled from the spec: [minimum_spanning_tree] is scipy's and not part
    of [src/].  Section 4.3: the graph is treated as undirected (an edge
    stored in either direction is a candidate, the smaller weight wins
    because candidates are taken in ascending order) and Kruskal's algorithm
    with union-find selects the forest; ties are taken in storage order.  As
    in the library, a selected entry stays where the graph stores it, in
    that one orientation, a rejected entry is zeroed, and zeros are dropped
    from the result. *)
Definition minimum_spanning_tree (N : nat) (G : csr) : csr :=
  eliminate_zeros
    (snd (kruskal_loop (argsort Qle_bool (data_of G)) (seq 0 N, G))).

(** ** Line 22: [MST[MST == zero_fix] = 0] *)

(** The order of the canonical form: by row, then by column. *)
Definition pos_leb (e f : entry) : bool :=
  Nat.ltb (row e) (row f) || (Nat.eqb (row e) (row f) && Nat.leb (col e) (col f)).

(** [M.sort_indices()] *)
Definition sort_indices (M : csr) : csr := isort pos_leb M.

(** The comparison [MST == zero_fix] first puts [MST] in canonical form, in
    place: its entries are re-ordered by row, then column (a position is
    stored once in the matrices of the script, so there are no duplicates to
    sum).  The assignment then stores the selected entries with weight 0;
    they keep their place in the matrix. *)
Definition restore (zf : Q) (M : csr) : csr :=
  map (fun e => if Qeq_bool (wt e) zf then set_wt e 0 else e) (sort_indices M).

(** ** Lines 24-25: [lmin], [lmax] *)

Definition lmin (M : csr) : result Q :=
  match min_list (positive (data_of M)) with
  | None => Err DegenerateRange
  | Some m => Ok m
  end.

Definition lmax (M : csr) : result Q :=
  match max_list (positive (data_of M)) with
  | None => Err DegenerateRange
  | Some m => Ok m
  end.

(** ** Lines 26-30: the raw persistence *)

(** [degree = MST.getnnz(1)] *)
Definition degree (M : csr) (i : nat) : nat := getnnz M i.

(** The value of [persist[i]] after the loop: it starts at 0
    ([np.zeros]) and is assigned only if [degree[i] > 0]. *)
Definition persist_at (M : csr) (i : nat) : result Q :=
  if Nat.ltb 0 (degree M i) then
    match min_list (positive (data_of (getrow M i))) with
    | None => Err EmptyRowMinimum
    | Some m => Ok m
    end
  else Ok 0.

Definition persist_raw (M : csr) (N : nat) : result (list Q) :=
  mapM (persist_at M) (seq 0 N).

(** ** Line 32: normalisation *)

(** A float64 that is a finite number, an infinity or not a number. *)
Inductive score : Type :=
| Fin (q : Q)
| PInf
| NInf
| NaN.

(** numpy's [x / d] on finite floats: no exception, also for [d = 0]. *)
Definition fdiv (x d : Q) : score :=
  if Qeq_bool d 0 then
    if Qeq_bool x 0 then NaN else if Qltb 0 x then PInf else NInf
  else Fin (x / d).

(** [persist = (persist - lmin) / (lmax - lmin)] *)
Definition normalize (lo hi : Q) (p : list Q) : list score :=
  map (fun x => fdiv (x - lo) (hi - lo)) p.

(** ** Lines 13-32: the core *)

(** The variables bound when line 32 is done. *)
Record outcome : Type := mkOutcome {
  out_G : csr;              (* line 17 *)
  out_zero_fix : Q;         (* line 16 *)
  out_MST : csr;            (* line 22 *)
  out_lmin : Q;             (* line 24 *)
  out_lmax : Q;             (* line 25 *)
  out_raw : list Q;         (* line 30 *)
  out_persist : list score  (* line 32 *)
}.

(** Lines 13 to 32.  The module-level settings of lines 8 to 10 (metric,
    neighbour count) and the data are arguments. *)
Definition pershout (metric : point -> point -> Q) (n_neighbors : Z)
    (data : list point) : result outcome :=
  let N := length data in
  G0 <- kneighbors_graph metric n_neighbors data ;;
  zf <- zero_fix G0 ;;
  let G := sanitize zf G0 in
  let MST := restore zf (minimum_spanning_tree N G) in
  lo <- lmin MST ;;
  hi <- lmax MST ;;
  raw <- persist_raw MST N ;;
  Ok (mkOutcome G zf MST lo hi raw (normalize lo hi raw)).

(** ** Lines 33-36: the diagnostic and the report *)

(** [persist < 0] *)
Definition score_neg (s : score) : bool :=
  match s with
  | Fin q => Qltb q 0
  | NInf => true
  | PInf | NaN => false
  end.

(** The number of scores that [persist < 0] selects. *)
Definition negative_count (p : list score) : nat := length (filter score_neg p).

(** The Python objects of line 33: an array of indices, or a tuple. *)
Inductive pyobject : Type :=
| ndarray (a : list nat)
| tuple (items : list (list nat)).

(** [np.where(cond)] with the condition alone: the tuple of the index
    arrays of the true entries, one array per dimension. *)
Definition np_where (cond : list bool) : pyobject :=
  tuple [map fst (filter snd (combine (seq 0 (length cond)) cond))].

(** [x.shape]: an array has a shape, a tuple has no such attribute. *)
Definition shape (x : pyobject) : result (list nat) :=
  match x with
  | ndarray a => Ok [length a]
  | tuple _ => Err AttributeError
  end.

(** The order numpy sorts floats in: numbers ascending, [nan] last. *)
Definition score_leb (s t : score) : bool :=
  match s, t with
  | _, NaN => true
  | NaN, _ => false
  | NInf, _ => true
  | _, NInf => false
  | _, PInf => true
  | PInf, _ => false
  | Fin a, Fin b => Qle_bool a b
  end.

(** The whole script; its result is what line 36 prints, [persist[idx]]. *)
Definition script (metric : point -> point -> Q) (n_neighbors : Z)
    (data : list point) : result (list score) :=
  o <- pershout metric n_neighbors data ;;
  let persist := out_persist o in
  _ <- shape (np_where (map score_neg persist)) ;;    (* line 33 *)
  let idx := argsort score_leb persist in             (* line 34 *)
  Ok (map (fun i => nth i persist NaN) idx).          (* line 36 *)

(** The Euclidean metric on points of a coordinate axis, where
    [sqrt ((x - y)^2)] is [|x - y|]. *)
Definition euclidean_line (p q : point) : Q := Qabs (nth 0%nat p 0 - nth 0%nat q 0).

(** ** The specification's scorer

    Section 4.4, for comparison with [persist_at]: the minimum over the
    strictly positive edges incident to [i], in either orientation, and a
    mark for a vertex of MST degree 0. *)

Inductive mark : Type :=
| Value (q : Q)
| Disconnected.

Definition incident (i : nat) (e : entry) : bool :=
  Nat.eqb (row e) i || Nat.eqb (col e) i.

Definition mst_degree (M : csr) (i : nat) : nat := length (filter (incident i) M).

Definition spec_persist_at (M : csr) (i : nat) : option mark :=
  if Nat.eqb (mst_degree M i) 0 then Some Disconnected
  else option_map Value (min_list (positive (data_of (filter (incident i) M)))).

(** ** Predicates of the statements *)

(** Points [a] and [b] coincide and every other pair of points is at a
    strictly positive distance. *)
Definition one_duplicate_pair (metric : point -> point -> Q)
    (data : list point) (a b : nat) : bool :=
  let N := length data in
  let d i j := metric (nth i data []) (nth j data []) in
  negb (Nat.eqb a b) && Nat.ltb a N && Nat.ltb b N && Qeq_bool (d a b) 0 &&
  forallb (fun i => forallb (fun j =>
      Nat.eqb i j || (Nat.eqb i a && Nat.eqb j b) || (Nat.eqb i b && Nat.eqb j a)
      || Qltb 0 (d i j)) (seq 0 N)) (seq 0 N).

(** An entry after Kruskal's loop: as stored, or zeroed. *)
Definition kept_or_zeroed (e e' : entry) : Prop := e' = e \/ e' = set_wt e 0.

(** [M == 0], entry by entry. *)
Definition zero_weight (e : entry) : bool := Qeq_bool (wt e) 0.

Definition is_finite (s : score) : bool :=
  match s with
  | Fin _ => true
  | _ => false
  end.

(** Results up to the representation of the rationals. *)
Definition entry_red (e : entry) : nat * nat * Q := (row e, col e, Qred (wt e)).

Definition score_red (s : score) : score :=
  match s with
  | Fin q => Fin (Qred q)
  | other => other
  end.

(** What the core computed: forest, [lmin], [lmax], raw persistence and
    scores; the last component is the value the expression of line 34,
    [np.argsort(persist)], has on these scores. *)
Definition view (r : result outcome) :=
  match r with
  | Ok o => Some (map entry_red (out_MST o), Qred (out_lmin o), Qred (out_lmax o),
                  map Qred (out_raw o), map score_red (out_persist o),
                  argsort score_leb (out_persist o))
  | Err _ => None
  end.

(** ** Point sets and forests of the examples *)

(** Four colinear points (specification, section 8) and their forest, which
    the script builds with three neighbours per point: edges 0-1 and 1-2 of
    weight 1, 2-3 of weight 8, each stored in the row of its lower end. *)
Definition colinear : list point := [[0]; [1]; [2]; [10]].
Definition colinear_forest : csr := [mkEntry 0 1 1; mkEntry 1 2 1; mkEntry 2 3 8].

(** Three equidistant points: both forest edges have weight 1. *)
Definition equidistant : list point := [[0]; [1]; [2]].
Definition equidistant_forest : csr := [mkEntry 0 1 1; mkEntry 1 2 1].

(** Four points, the first two coincident, and a neighbour graph of theirs
    with two neighbours per point (equidistant neighbours by index). *)
Definition one_pair : list point := [[0]; [0]; [1]; [3]].
Definition one_pair_graph : csr :=
  [mkEntry 0 1 0; mkEntry 0 2 1; mkEntry 1 0 0; mkEntry 1 2 1;
   mkEntry 2 0 1; mkEntry 2 1 1; mkEntry 3 2 2; mkEntry 3 0 3].

(** Three points, the last two coincident, and the forest the script
    builds for them with two neighbours per point. *)
Definition late_pair : list point := [[0]; [5]; [5]].
Definition late_pair_forest : csr := [mkEntry 0 1 5; mkEntry 1 2 0].

(** Four points, the first three coincident. *)
Definition triple : list point := [[0]; [0]; [0]; [1]].

(** ** Edges and paths of the forest *)

(** Entry [e] joins the vertices [a] and [b], in one orientation or the
    other. *)
Definition between (a b : nat) (e : entry) : bool :=
  (Nat.eqb (row e) a && Nat.eqb (col e) b) || (Nat.eqb (row e) b && Nat.eqb (col e) a).

(** [u] and [v] are joined by a path of stored entries of [E], each taken
    in either orientation. *)
Inductive joined (E : csr) : nat -> nat -> Prop :=
| joined_refl u : joined E u u
| joined_edge e : In e E -> joined E (row e) (col e)
| joined_sym u v : joined E u v -> joined E v u
| joined_trans u v w : joined E u v -> joined E v w -> joined E u w.

(** Distances are not negative. *)
Definition nonnegative (G : csr) : bool := forallb (fun e => Qle_bool 0 (wt e)) G.

(** No stored zero of [G] touches [a] or [b], except between [a] and [b]:
    no third point coincides with them. *)
Definition apart_from_others (G : csr) (a b : nat) : bool :=
  forallb (fun g => negb (Qeq_bool (wt g) 0)
                    || negb (incident a g || incident b g)
                    || between a b g) G.

(** The entries Kruskal's loop has kept among the positions [P] it has
    met. *)
Definition kept_at (d : csr) (j : nat) : csr :=
  match nth_error d j with
  | Some e => if Qeq_bool (wt e) 0 then [] else [e]
  | None => []
  end.

Definition kept (d : csr) (P : list nat) : csr := flat_map (kept_at d) P.

(** What Kruskal's loop maintains, [P] being the positions met so far: the
    labels cover the [N] vertices, the entries stay in shape, no entry yet
    to meet is 0, and two vertices with one label are joined by kept
    entries. *)
Definition kruskal_inv (N : nat) (c : list nat) (d : csr) (P : list nat) : Prop :=
  length c = N /\
  (forall e, In e d -> (row e < N)%nat /\ (col e < N)%nat) /\
  (forall i e, nth_error d i = Some e -> ~ In i P -> Qeq_bool (wt e) 0 = false) /\
  (forall u v, (u < N)%nat -> (v < N)%nat -> find c u = find c v ->
               joined (kept d P) u v).

(** Six points with two pairs of coincident points, and their neighbour
    graph with one neighbour per point (the nearest neighbour of every
    point is unique). *)
Definition two_pairs : list point := [[0]; [0]; [10]; [10]; [31]; [32]].
Definition two_pairs_graph : csr :=
  [mkEntry 0 1 0; mkEntry 1 0 0; mkEntry 2 3 0; mkEntry 3 2 0;
   mkEntry 4 5 1; mkEntry 5 4 1].

(** Five points, the first two coincident, and their neighbour graph with
    two neighbours per point (the two nearest neighbours of every point are
    unique); row 4 stores column 3 before column 2. *)
Definition far_pair : list point := [[0]; [0]; [10]; [11]; [13]].
Definition far_pair_graph_2 : csr :=
  [mkEntry 0 1 0; mkEntry 0 2 10; mkEntry 1 0 0; mkEntry 1 2 10;
   mkEntry 2 3 1; mkEntry 2 4 3; mkEntry 3 2 1; mkEntry 3 4 2;
   mkEntry 4 3 2; mkEntry 4 2 3].

(** ** Predicates of the further properties *)

(** Every stored entry of [M] lies in an [N] x [N] matrix. *)
Definition in_shape (N : nat) (M : csr) : bool :=
  forallb (fun e => Nat.ltb (row e) N && Nat.ltb (col e) N) M.

(** Two results agree: the same exception, or equal numbers. *)
Definition res_eq (r r' : result Q) : Prop :=
  match r, r' with
  | Ok x, Ok y => x == y
  | Err a, Err b => a = b
  | _, _ => False
  end.

(** The number of components the union-find labels tell apart. *)
Definition classes (c : list nat) : nat := length (nodup Nat.eq_dec c).

(** Position [j] of [d] stores a weight other than 0. *)
Definition nonzero_at (d : csr) (j : nat) : bool :=
  match nth_error d j with
  | Some e => negb (Qeq_bool (wt e) 0)
  | None => false
  end.

(** * Properties *)

(** ** Comparisons and reductions *)

Lemma Qltb_lt x y : Qltb x y = true <-> x < y.
Proof.
  unfold Qltb. rewrite negb_true_iff.
  destruct (Qle_bool y x) eqn:E.
  - apply Qle_bool_iff in E. split; [discriminate | intro H; exfalso; lra].
  - split; [intros _ | reflexivity].
    apply Qnot_le_lt. intro H. apply Qle_bool_iff in H. congruence.
Qed.

Lemma Qltb_ge x y : Qltb x y = false <-> y <= x.
Proof.
  unfold Qltb. rewrite negb_false_iff. apply Qle_bool_iff.
Qed.

Lemma positive_In w l : In w (positive l) <-> In w l /\ 0 < w.
Proof.
  unfold positive. rewrite filter_In, Qltb_lt. reflexivity.
Qed.

Lemma Qmin_cases x y : Qmin x y = x \/ Qmin x y = y.
Proof.
  unfold Qmin, GenericMinMax.gmin. destruct (x ?= y); auto.
Qed.

Lemma Qmax_cases x y : Qmax x y = x \/ Qmax x y = y.
Proof.
  unfold Qmax, GenericMinMax.gmax. destruct (x ?= y); auto.
Qed.

Lemma fold_Qmin_In t : forall x, In (fold_left Qmin t x) (x :: t).
Proof.
  induction t as [|y t IH]; intros x; simpl; [auto|].
  destruct (IH (Qmin x y)) as [H|H]; [|right; right; exact H].
  rewrite <- H. destruct (Qmin_cases x y) as [E|E]; rewrite E; auto.
Qed.

Lemma fold_Qmin_le t : forall x y, In y (x :: t) -> fold_left Qmin t x <= y.
Proof.
  induction t as [|z t IH]; intros x y Hy; simpl.
  - destruct Hy as [<-|[]]. apply Qle_refl.
  - destruct Hy as [<-|[<-|Hy]].
    + eapply Qle_trans; [apply IH; left; reflexivity | apply Q.le_min_l].
    + eapply Qle_trans; [apply IH; left; reflexivity | apply Q.le_min_r].
    + apply IH. right. exact Hy.
Qed.

Lemma fold_Qmax_In t : forall x, In (fold_left Qmax t x) (x :: t).
Proof.
  induction t as [|y t IH]; intros x; simpl; [auto|].
  destruct (IH (Qmax x y)) as [H|H]; [|right; right; exact H].
  rewrite <- H. destruct (Qmax_cases x y) as [E|E]; rewrite E; auto.
Qed.

Lemma fold_Qmax_ge t : forall x y, In y (x :: t) -> y <= fold_left Qmax t x.
Proof.
  induction t as [|z t IH]; intros x y Hy; simpl.
  - destruct Hy as [<-|[]]. apply Qle_refl.
  - destruct Hy as [<-|[<-|Hy]].
    + eapply Qle_trans; [apply Q.le_max_l | apply IH; left; reflexivity].
    + eapply Qle_trans; [apply Q.le_max_r | apply IH; left; reflexivity].
    + apply IH. right. exact Hy.
Qed.

Lemma min_list_spec l m :
  min_list l = Some m -> In m l /\ forall y, In y l -> m <= y.
Proof.
  destruct l as [|x t]; simpl; [discriminate|].
  intros [= <-]. split; [apply fold_Qmin_In | apply fold_Qmin_le].
Qed.

Lemma max_list_spec l m :
  max_list l = Some m -> In m l /\ forall y, In y l -> y <= m.
Proof.
  destruct l as [|x t]; simpl; [discriminate|].
  intros [= <-]. split; [apply fold_Qmax_In | apply fold_Qmax_ge].
Qed.

Lemma min_list_None l : min_list l = None <-> l = [].
Proof. destruct l; simpl; split; congruence. Qed.

Lemma max_list_None l : max_list l = None <-> l = [].
Proof. destruct l; simpl; split; congruence. Qed.

Lemma filter_nil_iff {A} (f : A -> bool) l :
  filter f l = [] <-> forall x, In x l -> f x = false.
Proof.
  induction l as [|a l IH]; simpl.
  - split; [intros _ x [] | reflexivity].
  - destruct (f a) eqn:E.
    + split; [discriminate | intro H; specialize (H a (or_introl eq_refl)); congruence].
    + rewrite IH. split.
      * intros H x [<-|Hx]; auto.
      * intros H x Hx. apply H. auto.
Qed.

Lemma positive_nil_iff (M : csr) :
  positive (data_of M) = [] <-> forall e, In e M -> ~ 0 < wt e.
Proof.
  unfold positive. rewrite filter_nil_iff. unfold data_of. split.
  - intros H e He Hpos. apply Qltb_lt in Hpos.
    rewrite (H (wt e)) in Hpos; [discriminate | apply in_map; exact He].
  - intros H w Hw. apply in_map_iff in Hw as (e & <- & He).
    destruct (Qltb 0 (wt e)) eqn:E; [|reflexivity].
    apply Qltb_lt in E. destruct (H e He E).
Qed.

(** ** The error monad *)

Lemma mapM_Ok {A B} (f : A -> result B) l : forall bs,
  mapM f l = Ok bs ->
  length bs = length l /\
  forall i a, nth_error l i = Some a ->
              exists b, nth_error bs i = Some b /\ f a = Ok b.
Proof.
  induction l as [|a l IH]; simpl; intros bs H.
  - injection H as <-. split; [reflexivity|]. intros [|i] x Hx; discriminate.
  - destruct (f a) as [b|e] eqn:Ea; simpl in H; [|discriminate].
    destruct (mapM f l) as [bs'|e] eqn:Em; simpl in H; [|discriminate].
    injection H as <-. destruct (IH bs' eq_refl) as [Hlen Hnth].
    split; [simpl; congruence|].
    intros [|i] x Hx; simpl in *.
    + injection Hx as <-. eauto.
    + apply Hnth. exact Hx.
Qed.

Lemma persist_raw_at M N p i :
  persist_raw M N = Ok p -> (i < N)%nat ->
  exists x, nth_error p i = Some x /\ persist_at M i = Ok x.
Proof.
  intros H Hi. apply mapM_Ok in H as [_ H].
  apply (H i i). rewrite nth_error_nth' with (d := 0%nat).
  - rewrite seq_nth; [reflexivity | exact Hi].
  - rewrite length_seq. exact Hi.
Qed.

(** ** Sorting *)

Section SortingFacts.
Context {A : Type} (leb : A -> A -> bool).

Lemma insert_perm x l : Permutation (insert leb x l) (x :: l).
Proof.
  induction l as [|y t IH]; simpl; [reflexivity|].
  destruct (leb x y); [reflexivity|].
  rewrite IH. apply perm_swap.
Qed.

Lemma isort_perm l : Permutation (isort leb l) l.
Proof.
  induction l as [|x t IH]; simpl; [reflexivity|].
  rewrite insert_perm. constructor. exact IH.
Qed.

Hypothesis leb_total : forall x y, leb x y = true \/ leb y x = true.
Hypothesis leb_trans :
  forall x y z, leb x y = true -> leb y z = true -> leb x z = true.

Lemma insert_sorted x l :
  StronglySorted (fun a b => leb a b = true) l ->
  StronglySorted (fun a b => leb a b = true) (insert leb x l).
Proof.
  induction 1 as [|y t Hs IH Hall]; simpl.
  - repeat constructor.
  - destruct (leb x y) eqn:E.
    + constructor; [constructor; assumption|].
      constructor; [exact E|].
      eapply Forall_impl; [|exact Hall]. intros z Hz. eapply leb_trans; eauto.
    + constructor; [exact IH|].
      eapply Permutation_Forall; [symmetry; apply insert_perm|].
      constructor; [|exact Hall].
      destruct (leb_total x y) as [H|H]; [congruence | exact H].
Qed.

Lemma isort_sorted l : StronglySorted (fun a b => leb a b = true) (isort leb l).
Proof.
  induction l as [|x t IH]; simpl; [constructor | apply insert_sorted; exact IH].
Qed.

End SortingFacts.

Lemma combine_seq_nth {A} (a : list A) : forall s p,
  In p (combine (seq s (length a)) a) ->
  (s <= fst p < s + length a)%nat /\ nth_error a (fst p - s) = Some (snd p).
Proof.
  induction a as [|x a IH]; simpl; intros s p Hp; [destruct Hp|].
  destruct Hp as [<-|Hp]; simpl.
  - rewrite Nat.sub_diag. split; [lia | reflexivity].
  - apply IH in Hp as [Hr Hn]. split; [lia|].
    replace (fst p - s)%nat with (S (fst p - S s)) by lia. exact Hn.
Qed.

Lemma combine_seq_fst {A} (a : list A) s :
  map fst (combine (seq s (length a)) a) = seq s (length a).
Proof.
  revert s. induction a as [|x a IH]; intros s; simpl; [reflexivity|].
  rewrite IH. reflexivity.
Qed.

Lemma argsort_perm {A} (leb : A -> A -> bool) a :
  Permutation (argsort leb a) (seq 0 (length a)).
Proof.
  unfold argsort. rewrite isort_perm. rewrite combine_seq_fst. reflexivity.
Qed.

Lemma argsort_sorted {A} (leb : A -> A -> bool) (d : A) a :
  (forall x y, leb x y = true \/ leb y x = true) ->
  (forall x y z, leb x y = true -> leb y z = true -> leb x z = true) ->
  StronglySorted (fun i j => leb (nth i a d) (nth j a d) = true) (argsort leb a).
Proof.
  intros Htot Htr. unfold argsort.
  set (lebp := fun p q : nat * A => leb (snd p) (snd q)).
  assert (Hs : StronglySorted (fun p q => lebp p q = true)
                 (isort lebp (combine (seq 0 (length a)) a))).
  { apply isort_sorted; unfold lebp; intros; eauto. }
  assert (Hin : Forall (fun p => nth (fst p) a d = snd p)
                  (isort lebp (combine (seq 0 (length a)) a))).
  { eapply Permutation_Forall; [symmetry; apply isort_perm|].
    apply Forall_forall. intros p Hp. apply combine_seq_nth in Hp as [_ Hn].
    rewrite Nat.sub_0_r in Hn. apply nth_error_nth. exact Hn. }
  induction Hs as [|p t Hs IH Hall]; simpl; [constructor|].
  inversion Hin as [|? ? Hp Ht]; subst.
  constructor; [apply IH; exact Ht|].
  apply Forall_map. rewrite Forall_forall in *. intros q Hq.
  rewrite Hp, (Ht q Hq). apply Hall. exact Hq.
Qed.

(** ** The scorer *)

Lemma getrow_In M i e : In e (getrow M i) <-> In e M /\ row e = i.
Proof.
  unfold getrow. rewrite filter_In, Nat.eqb_eq. reflexivity.
Qed.

Lemma persist_at_empty_row M i : getnnz M i = 0%nat -> persist_at M i = Ok 0.
Proof.
  unfold persist_at, degree. intros ->. reflexivity.
Qed.

Lemma persist_at_stored M i x :
  persist_at M i = Ok x -> (0 < getnnz M i)%nat ->
  exists e, In e M /\ row e = i /\ wt e = x /\ 0 < x /\
            forall f, In f M -> row f = i -> 0 < wt f -> x <= wt f.
Proof.
  unfold persist_at, degree. intros H Hd.
  apply Nat.ltb_lt in Hd. rewrite Hd in H.
  destruct (min_list (positive (data_of (getrow M i)))) as [m|] eqn:E; [|discriminate].
  injection H as <-. apply min_list_spec in E as [Hin Hle].
  apply positive_In in Hin as [Hin Hpos].
  apply in_map_iff in Hin as (e & Hw & He). apply getrow_In in He as [He Hr].
  exists e. repeat split; auto.
  intros f Hf Hrf Hpf. apply Hle. apply positive_In. split; [|exact Hpf].
  apply in_map. apply getrow_In. auto.
Qed.

(** ** Bounds *)

Lemma lmin_spec M lo :
  lmin M = Ok lo ->
  0 < lo /\ (exists e, In e M /\ wt e = lo) /\
  forall e, In e M -> 0 < wt e -> lo <= wt e.
Proof.
  unfold lmin. destruct (min_list (positive (data_of M))) as [m|] eqn:E; [|discriminate].
  intros [= <-]. apply min_list_spec in E as [Hin Hle].
  apply positive_In in Hin as [Hin Hpos]. apply in_map_iff in Hin as (e & Hw & He).
  repeat split; eauto.
  intros f Hf Hpf. apply Hle, positive_In. split; [apply in_map; exact Hf | exact Hpf].
Qed.

Lemma lmax_spec M hi :
  lmax M = Ok hi ->
  0 < hi /\ (exists e, In e M /\ wt e = hi) /\
  forall e, In e M -> 0 < wt e -> wt e <= hi.
Proof.
  unfold lmax. destruct (max_list (positive (data_of M))) as [m|] eqn:E; [|discriminate].
  intros [= <-]. apply max_list_spec in E as [Hin Hle].
  apply positive_In in Hin as [Hin Hpos]. apply in_map_iff in Hin as (e & Hw & He).
  repeat split; eauto.
  intros f Hf Hpf. apply Hle, positive_In. split; [apply in_map; exact Hf | exact Hpf].
Qed.

Lemma lmin_Err_iff M : lmin M = Err DegenerateRange <-> positive (data_of M) = [].
Proof.
  unfold lmin. destruct (min_list (positive (data_of M))) eqn:E.
  - split; [discriminate|]. intros H. rewrite H in E. discriminate.
  - apply min_list_None in E. tauto.
Qed.

Lemma fdiv_finite x d : ~ d == 0 -> fdiv x d = Fin (x / d).
Proof.
  intros H. unfold fdiv. destruct (Qeq_bool d 0) eqn:E; [|reflexivity].
  apply Qeq_bool_iff in E. contradiction.
Qed.

Lemma fdiv_zero x d : d == 0 -> is_finite (fdiv x d) = false.
Proof.
  intros H. unfold fdiv. apply Qeq_bool_iff in H. rewrite H.
  destruct (Qeq_bool x 0), (Qltb 0 x); reflexivity.
Qed.

Lemma unit_interval x lo hi :
  lo < hi -> lo <= x -> x <= hi -> 0 <= (x - lo) / (hi - lo) <= 1.
Proof.
  intros Hlt H1 H2. split.
  - apply Qle_shift_div_l; lra.
  - apply Qle_shift_div_r; lra.
Qed.

Lemma below_zero lo hi : 0 < lo -> lo < hi -> (0 - lo) / (hi - lo) < 0.
Proof.
  intros H1 H2. apply Qlt_shift_div_r; lra.
Qed.

Lemma normalize_nth lo hi raw i x :
  nth_error raw i = Some x ->
  nth_error (normalize lo hi raw) i = Some (fdiv (x - lo) (hi - lo)).
Proof.
  intros H. unfold normalize. rewrite nth_error_map, H. reflexivity.
Qed.

(** ** The neighbour graph *)

Lemma firstn_incl {A} n (l : list A) x : In x (firstn n l) -> In x l.
Proof.
  intros H. rewrite <- (firstn_skipn n l). apply in_or_app. left. exact H.
Qed.

Lemma kneighbors_In metric k data i e :
  In e (kneighbors metric k data i) ->
  row e = i /\ col e <> i /\ (col e < length data)%nat /\
  wt e = metric (nth i data []) (nth (col e) data []).
Proof.
  unfold kneighbors. intros H. apply firstn_incl in H.
  apply (Permutation_in _ (isort_perm wt_leb _)) in H.
  apply in_map_iff in H as (j & <- & Hj). apply filter_In in Hj as [Hj Hne].
  apply in_seq in Hj. apply negb_true_iff, Nat.eqb_neq in Hne. simpl.
  repeat split; auto. lia.
Qed.

Lemma kneighbors_nonempty metric k data i :
  (1 <= k)%nat -> (2 <= length data)%nat -> (i < length data)%nat ->
  kneighbors metric k data i <> [].
Proof.
  intros Hk HN Hi. unfold kneighbors.
  set (others := filter (fun j => negb (Nat.eqb j i)) (seq 0 (length data))).
  assert (Hex : exists j, In j others).
  { exists (if Nat.eqb i 0 then 1%nat else 0%nat). apply filter_In. split.
    - apply in_seq. destruct (Nat.eqb i 0); lia.
    - destruct (Nat.eqb i 0) eqn:E; apply negb_true_iff, Nat.eqb_neq.
      + apply Nat.eqb_eq in E. lia.
      + apply Nat.eqb_neq in E. lia. }
  destruct Hex as [j Hj]. intros Hnil.
  apply (f_equal (@length entry)) in Hnil. rewrite length_firstn in Hnil.
  rewrite (Permutation_length (isort_perm wt_leb _)), length_map in Hnil.
  destruct others; [destruct Hj | simpl in Hnil; lia].
Qed.

Lemma kneighbors_graph_Ok metric k data G :
  kneighbors_graph metric k data = Ok G ->
  (1 <= k < Z.of_nat (length data))%Z /\
  G = flat_map (kneighbors metric (Z.to_nat k) data) (seq 0 (length data)).
Proof.
  unfold kneighbors_graph.
  destruct ((k <? 1)%Z || (Z.of_nat (length data) <=? k)%Z) eqn:E; [discriminate|].
  intros [= <-]. apply orb_false_iff in E as [E1 E2].
  apply Z.ltb_ge in E1. apply Z.leb_gt in E2. split; [lia | reflexivity].
Qed.

(** Every vertex has a stored entry in its row, to another vertex, at the
    metric's distance. *)
Lemma kneighbors_graph_row metric k data G i :
  kneighbors_graph metric k data = Ok G -> (i < length data)%nat ->
  exists e, In e G /\ row e = i /\ col e <> i /\ (col e < length data)%nat /\
            wt e = metric (nth i data []) (nth (col e) data []).
Proof.
  intros HG Hi. apply kneighbors_graph_Ok in HG as [Hk ->].
  destruct (kneighbors metric (Z.to_nat k) data i) as [|e t] eqn:E.
  - exfalso. revert E. apply kneighbors_nonempty; lia.
  - exists e. split.
    + apply in_flat_map. exists i. split; [apply in_seq; lia | rewrite E; left; reflexivity].
    + apply (kneighbors_In metric (Z.to_nat k) data i). rewrite E. left. reflexivity.
Qed.

Lemma zero_fix_Err_iff G :
  zero_fix G = Err DegenerateGraph <-> positive (data_of G) = [].
Proof.
  unfold zero_fix. destruct (min_list (positive (data_of G))) eqn:E.
  - split; [discriminate|]. intros H. rewrite H in E. discriminate.
  - apply min_list_None in E. tauto.
Qed.

(** Outside a duplicate pair one of the first three points is at a positive
    distance from every other point. *)
Lemma one_duplicate_pair_apart metric data a b :
  (3 <= length data)%nat -> one_duplicate_pair metric data a b = true ->
  exists c, (c < length data)%nat /\
    forall j, (j < length data)%nat -> j <> c ->
              0 < metric (nth c data []) (nth j data []).
Proof.
  intros HN H. unfold one_duplicate_pair in H.
  apply andb_true_iff in H as [_ H].
  set (c := if Nat.eqb a 0 || Nat.eqb b 0
            then if Nat.eqb a 1 || Nat.eqb b 1 then 2%nat else 1%nat
            else 0%nat).
  assert (Hc : (c < length data)%nat /\ c <> a /\ c <> b).
  { unfold c.
    destruct (Nat.eqb a 0) eqn:A0, (Nat.eqb b 0) eqn:B0,
             (Nat.eqb a 1) eqn:A1, (Nat.eqb b 1) eqn:B1; simpl;
      repeat match goal with
             | E : Nat.eqb _ _ = true |- _ => apply Nat.eqb_eq in E
             | E : Nat.eqb _ _ = false |- _ => apply Nat.eqb_neq in E
             end; lia. }
  destruct Hc as (Hc & Hca & Hcb). exists c. split; [exact Hc|].
  intros j Hj Hjc. rewrite forallb_forall in H.
  specialize (H c (proj2 (in_seq _ _ _) (conj (Nat.le_0_l c) Hc))).
  rewrite forallb_forall in H.
  specialize (H j (proj2 (in_seq _ _ _) (conj (Nat.le_0_l j) Hj))).
  replace (Nat.eqb c j) with false in H by (symmetry; apply Nat.eqb_neq; lia).
  replace (Nat.eqb c a) with false in H by (symmetry; apply Nat.eqb_neq; lia).
  replace (Nat.eqb c b) with false in H by (symmetry; apply Nat.eqb_neq; lia).
  simpl in H. apply Qltb_lt. exact H.
Qed.

(** ** The sanitizer *)

Lemma zero_fix_spec G zf :
  zero_fix G = Ok zf -> 0 < zf /\ forall e, In e G -> 0 < wt e -> zf < wt e.
Proof.
  unfold zero_fix.
  destruct (min_list (positive (data_of G))) as [m|] eqn:E; [|discriminate].
  intros [= <-]. apply min_list_spec in E as [Hin Hle].
  apply positive_In in Hin as [_ Hm]. split; [lra|].
  intros e He Hpos.
  assert (m <= wt e).
  { apply Hle, positive_In. split; [apply in_map; exact He | exact Hpos]. }
  lra.
Qed.

Lemma sanitize_nth zf G j e :
  nth_error G j = Some e ->
  nth_error (sanitize zf G) j
  = Some (if Qeq_bool (wt e) 0 then set_wt e zf else e).
Proof.
  intros H. unfold sanitize. rewrite nth_error_map, H. reflexivity.
Qed.

(** ** Kruskal's loop *)

Lemma kept_or_zeroed_trans e1 e2 e3 :
  kept_or_zeroed e1 e2 -> kept_or_zeroed e2 e3 -> kept_or_zeroed e1 e3.
Proof.
  unfold kept_or_zeroed. intros [->| ->] [->| ->]; auto.
Qed.

Lemma Forall2_kept_refl d : Forall2 kept_or_zeroed d d.
Proof.
  induction d; constructor; [left; reflexivity | assumption].
Qed.

Lemma Forall2_kept_trans d1 : forall d2 d3,
  Forall2 kept_or_zeroed d1 d2 -> Forall2 kept_or_zeroed d2 d3 ->
  Forall2 kept_or_zeroed d1 d3.
Proof.
  induction d1 as [|e d1 IH]; intros d2 d3 H12 H23.
  - inversion H12; subst. inversion H23; subst. constructor.
  - inversion H12; subst. inversion H23; subst.
    constructor; [eapply kept_or_zeroed_trans; eassumption | eapply IH; eassumption].
Qed.

Lemma zero_at_shape j : forall d, Forall2 kept_or_zeroed d (zero_at j d).
Proof.
  induction j as [|j IH]; intros [|e d]; simpl; try constructor.
  - right; reflexivity.
  - apply Forall2_kept_refl.
  - left; reflexivity.
  - apply IH.
Qed.

Lemma zero_at_same j : forall d e,
  nth_error d j = Some e -> nth_error (zero_at j d) j = Some (set_wt e 0).
Proof.
  induction j as [|j IH]; intros [|x d] e; simpl; try discriminate.
  - intros [= ->]. reflexivity.
  - apply IH.
Qed.

Lemma zero_at_other i : forall d j,
  j <> i -> nth_error (zero_at i d) j = nth_error d j.
Proof.
  induction i as [|i IH]; intros [|x d] [|j] H; simpl; try reflexivity.
  - congruence.
  - apply IH. congruence.
Qed.

Lemma kruskal_step_shape c d j :
  Forall2 kept_or_zeroed d (snd (kruskal_step (c, d) j)).
Proof.
  unfold kruskal_step. destruct (nth_error d j) as [e|]; [|apply Forall2_kept_refl].
  destruct (Nat.eqb (find c (row e)) (find c (col e))); simpl;
    [apply zero_at_shape | apply Forall2_kept_refl].
Qed.

Lemma kruskal_loop_cons j order st :
  kruskal_loop (j :: order) st = kruskal_loop order (kruskal_step st j).
Proof. reflexivity. Qed.

Lemma kruskal_loop_shape order : forall c d,
  Forall2 kept_or_zeroed d (snd (kruskal_loop order (c, d))).
Proof.
  induction order as [|j order IH]; intros c d; [apply Forall2_kept_refl|].
  rewrite kruskal_loop_cons.
  destruct (kruskal_step (c, d) j) as [c' d'] eqn:E.
  eapply Forall2_kept_trans; [|apply IH].
  pose proof (kruskal_step_shape c d j) as H. rewrite E in H. exact H.
Qed.

Lemma kruskal_step_other c d i j :
  j <> i -> nth_error (snd (kruskal_step (c, d) i)) j = nth_error d j.
Proof.
  intros H. unfold kruskal_step. destruct (nth_error d i) as [e|]; [|reflexivity].
  destruct (Nat.eqb (find c (row e)) (find c (col e))); simpl;
    [apply zero_at_other; exact H | reflexivity].
Qed.

Lemma kruskal_loop_untouched order : forall c d j,
  ~ In j order -> nth_error (snd (kruskal_loop order (c, d))) j = nth_error d j.
Proof.
  induction order as [|i order IH]; intros c d j H; [reflexivity|].
  rewrite kruskal_loop_cons.
  destruct (kruskal_step (c, d) i) as [c' d'] eqn:E.
  rewrite IH by (intro; apply H; right; assumption).
  pose proof (kruskal_step_other c d i j) as Ho. rewrite E in Ho.
  apply Ho. intros ->. apply H. left. reflexivity.
Qed.

Lemma find_seq N v : find (seq 0 N) v = v.
Proof.
  unfold find. destruct (Nat.lt_ge_cases v N) as [H|H].
  - rewrite seq_nth by exact H. reflexivity.
  - apply nth_overflow. rewrite length_seq. exact H.
Qed.

Lemma find_union c r1 r2 v :
  (v < length c)%nat ->
  find (union c r1 r2) v = if Nat.eqb (find c v) r2 then r1 else find c v.
Proof.
  intros H. unfold find, union.
  set (f := fun l => if Nat.eqb l r2 then r1 else l).
  rewrite (nth_indep _ v (f v)) by (rewrite length_map; exact H).
  rewrite map_nth. reflexivity.
Qed.

(** ** From positions to stored entries *)

Lemma Forall2_In_r {A B} (R : A -> B -> Prop) l l' y :
  Forall2 R l l' -> In y l' -> exists x, In x l /\ R x y.
Proof.
  induction 1 as [|a b l l' Hab _ IH]; intros Hy; [destruct Hy|].
  destruct Hy as [<-|Hy].
  - exists a. split; [left; reflexivity | exact Hab].
  - destruct (IH Hy) as (x & Hx & HR). exists x. split; [right; exact Hx | exact HR].
Qed.

Lemma Forall2_nth_r {A B} (R : A -> B -> Prop) l l' :
  Forall2 R l l' -> forall j y, nth_error l' j = Some y ->
  exists x, nth_error l j = Some x /\ R x y.
Proof.
  induction 1 as [|a b l l' Hab _ IH]; intros [|j] y Hy; simpl in *; try discriminate.
  - injection Hy as <-. eauto.
  - apply IH. exact Hy.
Qed.

Lemma data_of_nth (M : csr) j e :
  nth_error M j = Some e -> nth j (data_of M) 0 = wt e.
Proof.
  intros H. apply nth_error_nth. unfold data_of. rewrite nth_error_map, H. reflexivity.
Qed.

Lemma Qle_bool_total x y : Qle_bool x y = true \/ Qle_bool y x = true.
Proof.
  rewrite !Qle_bool_iff. destruct (Qlt_le_dec x y); [left; lra | right; assumption].
Qed.

Lemma Qle_bool_trans x y z :
  Qle_bool x y = true -> Qle_bool y z = true -> Qle_bool x z = true.
Proof. rewrite !Qle_bool_iff. apply Qle_trans. Qed.

(** ** More on the error monad, reductions and sorted lists *)

Lemma mapM_Err {A B} (f : A -> result B) l e :
  mapM f l = Err e -> exists a, In a l /\ f a = Err e.
Proof.
  induction l as [|a l IH]; simpl; [discriminate|].
  destruct (f a) as [b|e'] eqn:Ea; simpl.
  - destruct (mapM f l) as [bs|e'']; simpl; [discriminate|].
    intros [= ->]. destruct (IH eq_refl) as (x & Hx & Hfx). eauto.
  - intros [= ->]. eauto.
Qed.

Lemma min_list_perm l l' :
  Permutation l l' ->
  match min_list l, min_list l' with
  | Some m, Some m' => m == m'
  | None, None => True
  | _, _ => False
  end.
Proof.
  intros Hp.
  destruct (min_list l) as [m|] eqn:E, (min_list l') as [m'|] eqn:E'.
  - apply min_list_spec in E as [Hin Hle]. apply min_list_spec in E' as [Hin' Hle'].
    apply Qle_antisym.
    + apply Hle. apply (Permutation_in _ (Permutation_sym Hp)). exact Hin'.
    + apply Hle'. apply (Permutation_in _ Hp). exact Hin.
  - apply min_list_None in E'. subst.
    apply Permutation_sym, Permutation_nil in Hp. subst. discriminate.
  - apply min_list_None in E. subst.
    apply Permutation_nil in Hp. subst. discriminate.
  - exact I.
Qed.

Lemma max_list_perm l l' :
  Permutation l l' ->
  match max_list l, max_list l' with
  | Some m, Some m' => m == m'
  | None, None => True
  | _, _ => False
  end.
Proof.
  intros Hp.
  destruct (max_list l) as [m|] eqn:E, (max_list l') as [m'|] eqn:E'.
  - apply max_list_spec in E as [Hin Hle]. apply max_list_spec in E' as [Hin' Hle'].
    apply Qle_antisym.
    + apply Hle'. apply (Permutation_in _ Hp). exact Hin.
    + apply Hle. apply (Permutation_in _ (Permutation_sym Hp)). exact Hin'.
  - apply max_list_None in E'. subst.
    apply Permutation_sym, Permutation_nil in Hp. subst. discriminate.
  - apply max_list_None in E. subst.
    apply Permutation_nil in Hp. subst. discriminate.
  - exact I.
Qed.

Lemma filter_perm {A} (f : A -> bool) l l' :
  Permutation l l' -> Permutation (filter f l) (filter f l').
Proof.
  induction 1 as [|x l l' _ IH|x y l|l l' l'' _ IH1 _ IH2]; simpl.
  - constructor.
  - destruct (f x); [constructor|]; exact IH.
  - destruct (f x), (f y); try reflexivity. apply perm_swap.
  - etransitivity; eassumption.
Qed.

Lemma persist_at_cases M i :
  (getnnz M i = 0%nat /\ persist_at M i = Ok 0) \/
  ((0 < getnnz M i)%nat /\
   ((exists x, persist_at M i = Ok x) \/
    (persist_at M i = Err EmptyRowMinimum /\
     forall e, In e M -> row e = i -> ~ 0 < wt e))).
Proof.
  destruct (getnnz M i) as [|n] eqn:En.
  - left. split; [reflexivity | apply persist_at_empty_row; exact En].
  - right. split; [lia|]. unfold persist_at, degree. rewrite En. simpl.
    destruct (min_list (positive (data_of (getrow M i)))) as [m|] eqn:E; [eauto|].
    right. split; [reflexivity|]. apply min_list_None in E.
    intros e He Hr. apply (proj1 (positive_nil_iff _) E). apply getrow_In. auto.
Qed.

Lemma fdiv_mono lo hi x y :
  lo < hi ->
  (x <= y <-> score_leb (fdiv (x - lo) (hi - lo)) (fdiv (y - lo) (hi - lo)) = true).
Proof.
  intros Hlt. rewrite !fdiv_finite by lra. simpl. rewrite Qle_bool_iff.
  unfold Qdiv. split; intros H.
  - apply Qmult_le_compat_r; [lra|]. apply Qlt_le_weak, Qinv_lt_0_compat. lra.
  - assert (Hinv : 0 < / (hi - lo)) by (apply Qinv_lt_0_compat; lra).
    apply Qmult_lt_0_le_reg_r in H; [lra | exact Hinv].
Qed.

(** ** The size of the forest *)

Lemma in_shape_In N M e :
  in_shape N M = true -> In e M -> (row e < N)%nat /\ (col e < N)%nat.
Proof.
  unfold in_shape. rewrite forallb_forall. intros H He.
  specialize (H e He). apply andb_true_iff in H as [H1 H2].
  split; apply Nat.ltb_lt; assumption.
Qed.

Lemma in_shape_intro N M :
  (forall e, In e M -> (row e < N)%nat /\ (col e < N)%nat) -> in_shape N M = true.
Proof.
  intros H. unfold in_shape. apply forallb_forall. intros e He.
  destruct (H e He). apply andb_true_iff. split; apply Nat.ltb_lt; assumption.
Qed.

Lemma find_In c v : (v < length c)%nat -> In (find c v) c.
Proof. intros H. unfold find. apply nth_In. exact H. Qed.

Lemma union_length c r1 r2 : length (union c r1 r2) = length c.
Proof. unfold union. apply length_map. Qed.

Lemma union_classes c r1 r2 :
  r1 <> r2 -> In r1 c -> In r2 c -> (classes (union c r1 r2) < classes c)%nat.
Proof.
  intros Hne H1 H2. unfold classes.
  eapply Nat.le_lt_trans;
    [|apply (remove_length_lt Nat.eq_dec), nodup_In; exact H2].
  apply NoDup_incl_length; [apply NoDup_nodup|].
  intros x Hx. apply nodup_In in Hx. unfold union in Hx.
  apply in_map_iff in Hx as (l & <- & Hl).
  apply in_in_remove.
  - destruct (Nat.eqb l r2) eqn:E; [exact Hne | apply Nat.eqb_neq; exact E].
  - apply nodup_In. destruct (Nat.eqb l r2); assumption.
Qed.

Lemma classes_pos c : c <> [] -> (1 <= classes c)%nat.
Proof.
  destruct c as [|x c]; [congruence|]. intros _. unfold classes.
  assert (H : In x (nodup Nat.eq_dec (x :: c))) by (apply nodup_In; left; reflexivity).
  destruct (nodup Nat.eq_dec (x :: c)); [destruct H | simpl; lia].
Qed.

Lemma zero_at_In j d e' :
  In e' (zero_at j d) -> exists e, In e d /\ kept_or_zeroed e e'.
Proof. apply Forall2_In_r, zero_at_shape. Qed.

Lemma nonzero_at_seq d :
  length (filter (nonzero_at d) (seq 0 (length d))) = length (eliminate_zeros d).
Proof.
  induction d as [|e d IH]; [reflexivity|].
  cbn [length seq]. rewrite <- seq_shift. cbn [filter].
  rewrite filter_map_swap.
  rewrite (filter_ext (fun a => nonzero_at (e :: d) (S a)) (nonzero_at d))
    by reflexivity.
  change (nonzero_at (e :: d) 0) with (negb (Qeq_bool (wt e) 0)).
  unfold eliminate_zeros in *. cbn [filter].
  destruct (negb (Qeq_bool (wt e) 0)); cbn [length];
    rewrite length_map, IH; reflexivity.
Qed.

(** One turn of the loop on a position not met before: the stored non-zero
    weights met so far and the components still apart stay within the
    number of vertices. *)
Lemma kruskal_step_count c d P j :
  ~ In j P ->
  (forall e, In e d -> (row e < length c)%nat /\ (col e < length c)%nat) ->
  (length (filter (nonzero_at d) P) + classes c <= length c)%nat ->
  let st := kruskal_step (c, d) j in
  length (fst st) = length c /\
  (forall e, In e (snd st) ->
     (row e < length c)%nat /\ (col e < length c)%nat) /\
  (length (filter (nonzero_at (snd st)) (j :: P)) + classes (fst st)
   <= length c)%nat.
Proof.
  intros Hj Hshape Hinv. unfold kruskal_step. cbv zeta.
  destruct (nth_error d j) as [e|] eqn:Ej.
  - destruct (Nat.eqb (find c (row e)) (find c (col e))) eqn:E; cbn [fst snd].
    + split; [reflexivity|]. split.
      * intros e' He'. apply zero_at_In in He' as (e0 & He0 & [->| ->]);
          apply (Hshape e0 He0).
      * cbn [filter]. unfold nonzero_at at 1. rewrite (zero_at_same j d e Ej).
        simpl. replace (Qeq_bool 0 0) with true by reflexivity. simpl.
        rewrite (filter_ext_in (nonzero_at (zero_at j d)) (nonzero_at d)); [exact Hinv|].
        intros p Hp. unfold nonzero_at. rewrite zero_at_other; [reflexivity|].
        intros ->. contradiction.
    + apply Nat.eqb_neq in E.
      destruct (Hshape e (nth_error_In _ _ Ej)) as [Hr Hc].
      split; [apply union_length|]. split; [exact Hshape|].
      pose proof (union_classes c _ _ E (find_In c _ Hr) (find_In c _ Hc)) as Hlt.
      cbn [filter]. destruct (nonzero_at d j); cbn [length]; lia.
  - cbn [fst snd]. split; [reflexivity|]. split; [exact Hshape|].
    cbn [filter]. unfold nonzero_at at 1. rewrite Ej. exact Hinv.
Qed.

Lemma kruskal_loop_count order : forall c d P,
  NoDup order -> (forall j, In j order -> ~ In j P) ->
  (forall e, In e d -> (row e < length c)%nat /\ (col e < length c)%nat) ->
  (length (filter (nonzero_at d) P) + classes c <= length c)%nat ->
  let st := kruskal_loop order (c, d) in
  length (fst st) = length c /\
  (length (filter (nonzero_at (snd st)) (rev order ++ P)) + classes (fst st)
   <= length c)%nat.
Proof.
  induction order as [|j order IH]; intros c d P Hnd Hfresh Hshape Hinv.
  - cbn. auto.
  - rewrite kruskal_loop_cons. inversion Hnd as [|? ? Hjn Hnd']; subst.
    destruct (kruskal_step_count c d P j) as (Hlen & Hshape' & Hinv'); auto.
    { apply Hfresh. left. reflexivity. }
    destruct (kruskal_step (c, d) j) as [c1 d1]. cbn [fst snd] in *.
    cbn [rev]. rewrite <- app_assoc. cbn [app].
    destruct (IH c1 d1 (j :: P)) as [Hl Hc]; auto.
    + intros p Hp [<-|Hin]; [contradiction|].
      revert Hin. apply Hfresh. right. exact Hp.
    + rewrite Hlen. exact Hshape'.
    + rewrite Hlen. exact Hinv'.
    + rewrite Hlen in Hl, Hc. auto.
Qed.

(** The forest stores at most [N - 1] entries, inside the shape of the
    graph. *)
Lemma minimum_spanning_tree_size N G :
  in_shape N G = true ->
  (length (minimum_spanning_tree N G) <= N - 1)%nat /\
  in_shape N (minimum_spanning_tree N G) = true.
Proof.
  intros Hshape. unfold minimum_spanning_tree.
  set (order := argsort Qle_bool (data_of G)).
  set (d' := snd (kruskal_loop order (seq 0 N, G))).
  assert (Hk : Forall2 kept_or_zeroed G d') by apply kruskal_loop_shape.
  split.
  - assert (Hperm : Permutation order (seq 0 (length d'))).
    { unfold order. rewrite <- (Forall2_length Hk).
      replace (length G) with (length (data_of G)) by apply length_map.
      apply argsort_perm. }
    destruct (kruskal_loop_count order (seq 0 N) G []) as [Hlen Hc].
    + apply (Permutation_NoDup (Permutation_sym Hperm)), seq_NoDup.
    + intros j _ [].
    + intros e He. rewrite length_seq. apply (in_shape_In N G); assumption.
    + cbn [filter length Nat.add]. unfold classes.
      apply NoDup_incl_length; [apply NoDup_nodup|].
      intros x Hx. apply nodup_In in Hx. exact Hx.
    + rewrite app_nil_r, length_seq in Hc.
      rewrite <- nonzero_at_seq.
      rewrite <- (Permutation_length
                    (filter_perm (nonzero_at d') _ _ Hperm)).
      rewrite (Permutation_length
                 (filter_perm (nonzero_at d') _ _ (Permutation_rev order))).
      change (snd (kruskal_loop order (seq 0 N, G))) with d' in Hc.
      match type of Hlen with
      | length ?c' = _ => assert (Hcl : (1 <= N)%nat -> (1 <= classes c')%nat)
      end.
      { intros HN. apply classes_pos. intros E.
        rewrite E, length_seq in Hlen. simpl in Hlen. lia. }
      lia.
  - apply in_shape_intro. intros e He.
    unfold eliminate_zeros in He. apply filter_In in He as [He _].
    destruct (Forall2_In_r _ _ _ _ Hk He) as (g & Hg & [->| ->]);
      exact (in_shape_In N G g Hshape Hg).
Qed.

Lemma getnnz_without_row M n i :
  i <> n -> getnnz (filter (fun e => negb (Nat.eqb (row e) n)) M) i = getnnz M i.
Proof.
  intros Hne. unfold getnnz, getrow. induction M as [|e M IH]; simpl; [reflexivity|].
  destruct (Nat.eqb (row e) n) eqn:En; simpl.
  - apply Nat.eqb_eq in En.
    replace (Nat.eqb (row e) i) with false by (symmetry; apply Nat.eqb_neq; lia).
    exact IH.
  - destruct (Nat.eqb (row e) i); simpl; rewrite IH; reflexivity.
Qed.

(** A matrix that stores an entry in each of its [N] rows stores at least
    [N] entries. *)
Lemma rows_all_stored N : forall M,
  (forall e, In e M -> (row e < N)%nat) ->
  (forall i, (i < N)%nat -> (0 < getnnz M i)%nat) ->
  (N <= length M)%nat.
Proof.
  induction N as [|N IH]; intros M Hrows Hall; [lia|].
  rewrite <- (filter_length (fun e => Nat.eqb (row e) N) M).
  assert (H1 : (0 < length (filter (fun e => Nat.eqb (row e) N) M))%nat)
    by (apply (Hall N); lia).
  assert (H2 : (N <= length (filter (fun e => negb (Nat.eqb (row e) N)) M))%nat).
  { apply IH.
    - intros e He. apply filter_In in He as [He Hne].
      apply negb_true_iff, Nat.eqb_neq in Hne. specialize (Hrows e He). lia.
    - intros i Hi. rewrite getnnz_without_row by lia. apply (Hall i). lia. }
  lia.
Qed.

Lemma empty_row_exists N M :
  (1 <= N)%nat -> (length M <= N - 1)%nat ->
  (forall e, In e M -> (row e < N)%nat) ->
  exists i, (i < N)%nat /\ getnnz M i = 0%nat.
Proof.
  intros HN Hlen Hrows.
  destruct (existsb (fun i => Nat.eqb (getnnz M i) 0) (seq 0 N)) eqn:E.
  - apply existsb_exists in E as (i & Hi & H0). apply in_seq in Hi.
    apply Nat.eqb_eq in H0. exists i. split; [lia | exact H0].
  - exfalso. assert (N <= length M)%nat; [|lia].
    apply rows_all_stored; [exact Hrows|].
    intros i Hi. destruct (getnnz M i) eqn:En; [|lia].
    assert (Hex : existsb (fun i => Nat.eqb (getnnz M i) 0) (seq 0 N) = true).
    { apply existsb_exists. exists i. split; [apply in_seq; lia|].
      rewrite En. reflexivity. }
    congruence.
Qed.

Lemma kneighbors_graph_shape metric k data G :
  kneighbors_graph metric k data = Ok G -> in_shape (length data) G = true.
Proof.
  intros H. apply kneighbors_graph_Ok in H as [_ ->].
  apply in_shape_intro. intros e He. apply in_flat_map in He as (i & Hi & He).
  apply in_seq in Hi. apply kneighbors_In in He as (-> & _ & Hc & _). lia.
Qed.

Lemma sanitize_shape N zf G : in_shape N (sanitize zf G) = in_shape N G.
Proof.
  unfold in_shape, sanitize. induction G as [|e G IH]; simpl; [reflexivity|].
  rewrite IH. destruct (Qeq_bool (wt e) 0); reflexivity.
Qed.

Lemma restore_length zf M : length (restore zf M) = length M.
Proof.
  unfold restore, sort_indices. rewrite length_map.
  apply Permutation_length, isort_perm.
Qed.

Lemma restore_In zf M f :
  In f (restore zf M) <->
  exists g, In g M /\ f = if Qeq_bool (wt g) zf then set_wt g 0 else g.
Proof.
  unfold restore, sort_indices. rewrite in_map_iff. split.
  - intros (g & <- & Hg). exists g. split; [|reflexivity].
    apply (Permutation_in _ (isort_perm pos_leb M)). exact Hg.
  - intros (g & Hg & ->). exists g. split; [reflexivity|].
    apply (Permutation_in _ (Permutation_sym (isort_perm pos_leb M))). exact Hg.
Qed.

Lemma restore_row zf M e :
  In e (restore zf M) -> exists g, In g M /\ row e = row g /\ col e = col g.
Proof.
  intros H. apply restore_In in H as (g & Hg & ->).
  exists g. destruct (Qeq_bool (wt g) zf); auto.
Qed.

(** The stages of a run that gets through line 32. *)
Lemma pershout_Ok metric k data o :
  pershout metric k data = Ok o ->
  exists G0 zf lo hi raw,
    kneighbors_graph metric k data = Ok G0 /\ zero_fix G0 = Ok zf /\
    let F := restore zf (minimum_spanning_tree (length data) (sanitize zf G0)) in
    lmin F = Ok lo /\ lmax F = Ok hi /\ persist_raw F (length data) = Ok raw /\
    o = mkOutcome (sanitize zf G0) zf F lo hi raw (normalize lo hi raw).
Proof.
  unfold pershout. intros H.
  destruct (kneighbors_graph metric k data) as [G0|] eqn:EG; [|discriminate].
  cbn [bind] in H.
  destruct (zero_fix G0) as [zf|] eqn:Ez; [|discriminate]. cbn [bind] in H.
  destruct (lmin _) as [lo|] eqn:El; [|discriminate]. cbn [bind] in H.
  destruct (lmax _) as [hi|] eqn:Eh; [|discriminate]. cbn [bind] in H.
  destruct (persist_raw _ _) as [raw|] eqn:Er; [|discriminate]. cbn [bind] in H.
  injection H as <-. exists G0, zf, lo, hi, raw. cbv zeta. auto 10.
Qed.

(** ** Paths by kept entries *)

Lemma joined_incl E E' u v :
  (forall k, In k E -> exists f, In f E' /\ row f = row k /\ col f = col k) ->
  joined E u v -> joined E' u v.
Proof.
  intros H. induction 1 as [u|e He|u v _ IH|u v w _ IH1 _ IH2].
  - apply joined_refl.
  - destruct (H e He) as (f & Hf & <- & <-). apply joined_edge. exact Hf.
  - apply joined_sym. exact IH.
  - eapply joined_trans; eassumption.
Qed.

Lemma joined_mono E E' u v : incl E E' -> joined E u v -> joined E' u v.
Proof.
  intros H. apply joined_incl. intros k Hk. exists k. auto.
Qed.

(** A path between two distinct vertices leaves each of them by an entry. *)
Lemma joined_touch E u v :
  joined E u v ->
  u = v \/ ((exists e, In e E /\ incident u e = true) /\
            (exists e, In e E /\ incident v e = true)).
Proof.
  induction 1 as [u|e He|u v _ IH|u v w _ IH1 _ IH2].
  - left. reflexivity.
  - right. split; exists e; (split; [exact He|]); unfold incident;
      rewrite Nat.eqb_refl; [reflexivity | apply orb_true_r].
  - destruct IH as [->|[H1 H2]]; [left; reflexivity | right; split; assumption].
  - destruct IH1 as [->|[Hu Hv]]; [exact IH2|].
    destruct IH2 as [<-|[_ Hw]]; right; split; assumption.
Qed.

Lemma kept_In d P k :
  In k (kept d P) <->
  exists j, In j P /\ nth_error d j = Some k /\ Qeq_bool (wt k) 0 = false.
Proof.
  unfold kept. rewrite in_flat_map. unfold kept_at. split.
  - intros (j & Hj & Hk). exists j. split; [exact Hj|].
    destruct (nth_error d j) as [e|]; [|destruct Hk].
    destruct (Qeq_bool (wt e) 0) eqn:E; [destruct Hk|].
    destruct Hk as [<-|[]]. auto.
  - intros (j & Hj & Hn & Hz). exists j. split; [exact Hj|].
    rewrite Hn, Hz. left. reflexivity.
Qed.

Lemma kept_zero_at j d P : ~ In j P -> kept (zero_at j d) P = kept d P.
Proof.
  intros H. unfold kept. induction P as [|i P IH]; [reflexivity|].
  cbn [flat_map]. rewrite IH by (intro; apply H; right; assumption).
  f_equal. unfold kept_at. rewrite zero_at_other; [reflexivity|].
  intros ->. apply H. left. reflexivity.
Qed.

(** One turn of the loop keeps [kruskal_inv]; the ends of the entry it has
    met are joined by kept entries, and the positions met before are as
    they were. *)
Lemma kruskal_step_inv N c d P j :
  kruskal_inv N c d P -> ~ In j P ->
  let st := kruskal_step (c, d) j in
  kruskal_inv N (fst st) (snd st) (j :: P) /\
  (forall e, nth_error d j = Some e ->
             joined (kept (snd st) (j :: P)) (row e) (col e)) /\
  (forall i, In i P -> nth_error (snd st) i = nth_error d i).
Proof.
  intros (Hlen & Hshape & H0 & HJ) Hj. unfold kruskal_step, kruskal_inv. cbv zeta.
  destruct (nth_error d j) as [e|] eqn:Ej.
  - destruct (Hshape e (nth_error_In _ _ Ej)) as [Hr Hc].
    destruct (Nat.eqb (find c (row e)) (find c (col e))) eqn:E; cbn [fst snd].
    + assert (Hk : kept (zero_at j d) (j :: P) = kept d P).
      { unfold kept. cbn [flat_map]. fold (kept (zero_at j d) P).
        rewrite (kept_zero_at j d P Hj). unfold kept_at at 1.
        rewrite (zero_at_same j d e Ej). reflexivity. }
      rewrite Hk. split; [|split].
      * split; [exact Hlen|]. split; [|split].
        -- intros e' He'. apply zero_at_In in He' as (e0 & He0 & [->| ->]);
             apply (Hshape e0 He0).
        -- intros i e' Hi Hni. apply (H0 i e').
           ++ rewrite <- Hi. symmetry. apply zero_at_other.
              intros ->. apply Hni. left. reflexivity.
           ++ intro. apply Hni. right. assumption.
        -- exact HJ.
      * intros e' [= <-]. apply HJ; auto. apply Nat.eqb_eq. exact E.
      * intros i Hi. apply zero_at_other. intros ->. contradiction.
    + apply Nat.eqb_neq in E.
      assert (Hnz : Qeq_bool (wt e) 0 = false) by (apply (H0 j e Ej Hj)).
      assert (Hk : kept d (j :: P) = e :: kept d P).
      { unfold kept. cbn [flat_map]. unfold kept_at at 1. rewrite Ej, Hnz.
        reflexivity. }
      rewrite Hk.
      assert (HJ' : forall u v, (u < N)%nat -> (v < N)%nat ->
                find c u = find c v -> joined (e :: kept d P) u v).
      { intros u v Hu Hv Huv. eapply joined_mono; [|apply HJ; eassumption].
        intros x Hx. right. exact Hx. }
      assert (He : joined (e :: kept d P) (row e) (col e))
        by (apply joined_edge; left; reflexivity).
      split; [|split].
      * split; [rewrite union_length; exact Hlen|]. split; [exact Hshape|]. split.
        -- intros i e' Hi Hni. apply (H0 i e' Hi). intro. apply Hni. right. assumption.
        -- intros u v Hu Hv. rewrite !find_union by (rewrite Hlen; assumption).
           destruct (Nat.eqb (find c u) (find c (col e))) eqn:Eu,
                    (Nat.eqb (find c v) (find c (col e))) eqn:Ev; intros Huv.
           ++ apply Nat.eqb_eq in Eu, Ev. apply HJ'; congruence.
           ++ apply Nat.eqb_eq in Eu.
              apply joined_trans with (col e); [apply HJ'; auto|].
              apply joined_trans with (row e); [apply joined_sym; exact He|].
              apply HJ'; auto.
           ++ apply Nat.eqb_eq in Ev.
              apply joined_trans with (row e); [apply HJ'; auto|].
              apply joined_trans with (col e); [exact He|].
              apply HJ'; auto.
           ++ apply HJ'; auto.
      * intros e' [= <-]. exact He.
      * reflexivity.
  - cbn [fst snd].
    assert (Hk : kept d (j :: P) = kept d P).
    { unfold kept. cbn [flat_map]. unfold kept_at at 1. rewrite Ej. reflexivity. }
    rewrite Hk. split; [|split].
    + split; [exact Hlen|]. split; [exact Hshape|]. split; [|exact HJ].
      intros i e' Hi Hni. apply (H0 i e' Hi). intro. apply Hni. right. assumption.
    + discriminate.
    + reflexivity.
Qed.

Lemma kruskal_loop_inv N order : forall c d P,
  kruskal_inv N c d P -> NoDup order -> (forall j, In j order -> ~ In j P) ->
  let st := kruskal_loop order (c, d) in
  kruskal_inv N (fst st) (snd st) (rev order ++ P).
Proof.
  induction order as [|j order IH]; intros c d P Hinv Hnd Hfresh; [exact Hinv|].
  rewrite kruskal_loop_cons. inversion Hnd as [|? ? Hjn Hnd']; subst.
  destruct (kruskal_step_inv N c d P j Hinv) as (Hinv' & _ & _).
  { apply Hfresh. left. reflexivity. }
  destruct (kruskal_step (c, d) j) as [c1 d1]. cbn [fst snd] in Hinv'.
  cbn [rev]. rewrite <- app_assoc. cbn [app].
  apply IH; auto.
  intros i Hi [<-|Hin]; [contradiction|].
  revert Hin. apply Hfresh. right. exact Hi.
Qed.

Lemma NoDup_app_disjoint {A} (l l' : list A) x :
  NoDup (l ++ l') -> In x l -> ~ In x l'.
Proof.
  induction l as [|a l IH]; intros Hnd Hx Hx'; [destruct Hx|].
  cbn in Hnd. inversion Hnd as [|? ? Hna Hnd']; subst.
  destruct Hx as [->|Hx].
  - apply Hna. apply in_or_app. right. exact Hx'.
  - apply (IH Hnd' Hx Hx').
Qed.

Lemma sorted_prefix {A} (R : A -> A -> Prop) pre p post :
  StronglySorted R (pre ++ p :: post) -> forall j, In j pre -> R j p.
Proof.
  induction pre as [|x pre IH]; intros Hs j Hj; [destruct Hj|].
  cbn in Hs. inversion Hs as [|? ? Hs' Hall]; subst.
  destruct Hj as [->|Hj]; [|apply IH; assumption].
  rewrite Forall_forall in Hall. apply Hall, in_elt.
Qed.

Lemma sanitize_In zf G e' :
  In e' (sanitize zf G) <->
  exists g, In g G /\ e' = if Qeq_bool (wt g) 0 then set_wt g zf else g.
Proof.
  unfold sanitize. rewrite in_map_iff. split; intros (g & H1 & H2).
  - exists g. auto.
  - exists g. auto.
Qed.

Lemma sanitize_weights zf G e' :
  zero_fix G = Ok zf -> nonnegative G = true -> In e' (sanitize zf G) ->
  Qeq_bool (wt e') 0 = false /\ zf <= wt e'.
Proof.
  intros Hzf Hnn He'. destruct (zero_fix_spec G zf Hzf) as [Hpos Hbelow].
  apply sanitize_In in He' as (g & Hg & ->).
  unfold nonnegative in Hnn. rewrite forallb_forall in Hnn.
  pose proof (proj1 (Qle_bool_iff _ _) (Hnn g Hg)) as Hge.
  destruct (Qeq_bool (wt g) 0) eqn:E; simpl.
  - split; [|lra]. apply not_true_iff_false. intros E'. apply Qeq_bool_iff in E'. lra.
  - split; [exact E|].
    assert (~ wt g == 0) by (intros E'; apply Qeq_bool_iff in E'; congruence).
    apply Qlt_le_weak, Hbelow; [exact Hg | lra].
Qed.

(** The ends of a stored zero of the graph are joined, in the final forest,
    by entries of weight 0. *)
Lemma zero_entry_joined G zf N e :
  zero_fix G = Ok zf -> in_shape N G = true -> nonnegative G = true ->
  In e G -> wt e == 0 ->
  joined (filter zero_weight
            (restore zf (minimum_spanning_tree N (sanitize zf G))))
         (row e) (col e).
Proof.
  intros Hzf Hshape Hnn He Hw0.
  destruct (zero_fix_spec G zf Hzf) as [Hpos _].
  set (G' := sanitize zf G).
  set (a := data_of G').
  set (order := argsort Qle_bool a).
  assert (HG' : forall e', In e' G' -> Qeq_bool (wt e') 0 = false /\ zf <= wt e')
    by (intros e'; apply sanitize_weights; assumption).
  destruct (In_nth_error _ _ He) as [p Hp].
  assert (Hp' : nth_error G' p = Some (set_wt e zf)).
  { unfold G'. rewrite (sanitize_nth zf G p e Hp).
    apply Qeq_bool_iff in Hw0. rewrite Hw0. reflexivity. }
  assert (Hperm : Permutation order (seq 0 (length G'))).
  { unfold order. replace (length G') with (length a) by apply length_map.
    apply argsort_perm. }
  assert (Hnd : NoDup order)
    by (apply (Permutation_NoDup (Permutation_sym Hperm)), seq_NoDup).
  assert (Hsorted : StronglySorted
            (fun i j => Qle_bool (nth i a 0) (nth j a 0) = true) order)
    by (apply argsort_sorted; [apply Qle_bool_total | apply Qle_bool_trans]).
  assert (Hpin : In p order).
  { apply (Permutation_in _ (Permutation_sym Hperm)), in_seq.
    split; [lia|]. apply nth_error_Some. congruence. }
  destruct (in_split _ _ Hpin) as (pre & post & Hord).
  rewrite Hord in Hnd, Hsorted.
  assert (Hinit : kruskal_inv N (seq 0 N) G' []).
  { split; [apply length_seq|]. split; [|split].
    - intros e' He'. apply (in_shape_In N G'); [|exact He'].
      unfold G'. rewrite sanitize_shape. exact Hshape.
    - intros i e' Hi _. apply HG'. eapply nth_error_In; exact Hi.
    - intros u v _ _. rewrite !find_seq. intros ->. apply joined_refl. }
  pose proof (kruskal_loop_inv N pre (seq 0 N) G' [] Hinit
                (NoDup_app_remove_r _ _ Hnd) (fun j _ H => H)) as Hinv1.
  cbv zeta in Hinv1. rewrite app_nil_r in Hinv1.
  set (st1 := kruskal_loop pre (seq 0 N, G')) in *.
  assert (Hpn : ~ In p pre /\ ~ In p post).
  { pose proof (NoDup_remove_2 _ _ _ Hnd) as H.
    split; intro; apply H, in_or_app; auto. }
  destruct (kruskal_step_inv N (fst st1) (snd st1) (rev pre) p) as (_ & Hedge & Hsame).
  { destruct st1; exact Hinv1. }
  { rewrite <- in_rev. tauto. }
  assert (Hd1 : nth_error (snd st1) p = Some (set_wt e zf)).
  { unfold st1. rewrite kruskal_loop_untouched; tauto. }
  specialize (Hedge _ Hd1). cbn [row col set_wt] in Hedge.
  set (st2 := kruskal_step (fst st1, snd st1) p) in *.
  set (d' := snd (kruskal_loop order (seq 0 N, G'))).
  assert (Hd' : d' = snd (kruskal_loop post (fst st2, snd st2))).
  { unfold d', st2, st1. rewrite Hord. unfold kruskal_loop.
    rewrite fold_left_app. cbn [fold_left].
    destruct (fold_left kruskal_step pre (seq 0 N, G')) as [c1 d1]. cbn [fst snd].
    destruct (kruskal_step (c1, d1) p); reflexivity. }
  assert (Hfrozen : forall j, In j (p :: rev pre) ->
            nth_error d' j = nth_error (snd st2) j).
  { intros j Hj. rewrite Hd'. apply kruskal_loop_untouched.
    destruct Hj as [<-|Hj]; [tauto|]. apply in_rev in Hj.
    apply (NoDup_app_disjoint pre (p :: post)) in Hj; [|exact Hnd].
    intro. apply Hj. right. assumption. }
  assert (Hshape' : Forall2 kept_or_zeroed G' d') by apply kruskal_loop_shape.
  eapply joined_incl; [|exact Hedge].
  intros k Hk. apply kept_In in Hk as (j & Hj & Hkj & Hknz).
  rewrite <- (Hfrozen j Hj) in Hkj.
  destruct (Forall2_nth_r _ _ _ Hshape' j k Hkj) as (g' & Hg' & [->| ->]);
    [|cbn in Hknz; discriminate].
  assert (Hwk : wt g' == zf).
  { apply Qle_antisym; [|apply HG'; eapply nth_error_In; exact Hg'].
    destruct Hj as [<-|Hj].
    - rewrite Hp' in Hg'. injection Hg' as <-. cbn. lra.
    - apply in_rev in Hj.
      pose proof (sorted_prefix _ pre p post Hsorted j Hj) as Hle. cbv beta in Hle.
      unfold a in Hle.
      rewrite (data_of_nth G' j g' Hg'), (data_of_nth G' p _ Hp') in Hle.
      apply Qle_bool_iff in Hle. exact Hle. }
  exists (set_wt g' 0). split; [|split; reflexivity].
  apply filter_In. split; [|reflexivity].
  apply restore_In. exists g'. split.
  - unfold minimum_spanning_tree, eliminate_zeros. fold G'. fold a. fold order. fold d'.
    apply filter_In. split; [eapply nth_error_In; exact Hkj|].
    rewrite Hknz. reflexivity.
  - apply Qeq_bool_iff in Hwk. rewrite Hwk. reflexivity.
Qed.

(** ** The script after line 32 *)

(** Line 33 raises on every array of scores. *)
Lemma script_cases metric k data :
  script metric k data =
  match pershout metric k data with
  | Ok _ => Err AttributeError
  | Err e => Err e
  end.
Proof.
  unfold script. destruct (pershout metric k data); reflexivity.
Qed.

Lemma insert_map {A} (leb : A -> A -> bool) (f : A -> A) x l :
  (forall a b, leb (f a) (f b) = leb a b) ->
  insert leb (f x) (map f l) = map f (insert leb x l).
Proof.
  intros H. induction l as [|y l IH]; [reflexivity|].
  cbn [map insert]. rewrite H. destruct (leb x y); [reflexivity|].
  cbn [map]. rewrite IH. reflexivity.
Qed.

Lemma isort_map {A} (leb : A -> A -> bool) (f : A -> A) l :
  (forall a b, leb (f a) (f b) = leb a b) ->
  isort leb (map f l) = map f (isort leb l).
Proof.
  intros H. induction l as [|x l IH]; [reflexivity|].
  cbn [map isort]. rewrite IH. apply insert_map. exact H.
Qed.

(** * The claims *)

(** C1 on the script.  For the four colinear points 0, 1, 2, 10 with k = 3
    the forest, [lmin] and [lmax] are as expected, but the raw persistence is
    (1, 1, 8, 0) and the scores are (0, 0, 1, -1/7): vertex 2 only sees the
    edge (2,3) stored in its row, and the row of vertex 3 is empty. *)
Theorem colinear_scenario :
  view (pershout euclidean_line 3 colinear) =
  Some ([(0%nat, 1%nat, 1); (1%nat, 2%nat, 1); (2%nat, 3%nat, 8)], 1, 8,
        [1; 1; 8; 0], [Fin 0; Fin 0; Fin 1; Fin (-1 # 7)], [3; 0; 1; 2]%nat).
Proof.
  vm_compute. reflexivity.
Qed.

(** C2 on the script.  The forest of the four colinear points stores the
    edge (1,2) in row 1 and the edge (2,3) in row 2.  Lines 27-30 read row
    [i] only: vertex 2 gets 8 where the least weight of its edges is 1, and
    vertex 3, which has the edge (2,3) and an empty row, counts as not
    connected and keeps 0 where that weight is 8. *)
Theorem scorer_misses_column_entries :
  (exists o, pershout euclidean_line 3 colinear = Ok o /\ out_MST o = colinear_forest) /\
  persist_at colinear_forest 2 = Ok 8 /\
  spec_persist_at colinear_forest 2 = Some (Value 1) /\
  degree colinear_forest 3 = 0%nat /\
  mst_degree colinear_forest 3 = 1%nat /\
  persist_at colinear_forest 3 = Ok 0 /\
  spec_persist_at colinear_forest 3 = Some (Value 8).
Proof.
  split; [eexists; split; vm_compute; reflexivity|].
  vm_compute. repeat split.
Qed.

(** C3 on the script.  For the four colinear points vertex 3 has the forest
    edge (2,3), stored in row 2; its own row is empty, it keeps the raw
    value 0 and gets the score -1/7: a number outside [0, 1] for a connected
    vertex, which [persist < 0] selects. *)
Theorem score_below_zero :
  exists o, pershout euclidean_line 3 colinear = Ok o /\
    mst_degree (out_MST o) 3 = 1%nat /\
    map score_red (out_persist o) = [Fin 0; Fin 0; Fin 1; Fin (-1 # 7)] /\
    negative_count (out_persist o) = 1%nat.
Proof.
  eexists. split; [vm_compute; reflexivity|]. repeat split.
Qed.

(** C4 (amended).  Let the neighbour graph store a strictly positive
    weight, and distances not be negative.  Then [zero_fix] is positive and
    below every positive weight, and a stored zero is in the sanitized graph
    with weight [zero_fix].  Every entry of the final forest is a stored
    entry of the neighbour graph with the weight it had there: a rewritten
    entry that survives is stored with weight exactly 0.  The ends of a
    stored zero are joined in the final forest by entries of weight exactly
    0: by the edge itself, in one of its orientations, when no third point
    coincides with them, and else possibly by a path through the points that
    do, an edge that would close a cycle being dropped. *)
Theorem zero_fix_round_trip G zf N :
  zero_fix G = Ok zf -> in_shape N G = true -> nonnegative G = true ->
  let F := restore zf (minimum_spanning_tree N (sanitize zf G)) in
  (0 < zf /\ forall e, In e G -> 0 < wt e -> zf < wt e) /\
  (forall e, In e G -> wt e == 0 -> In (set_wt e zf) (sanitize zf G)) /\
  (forall f, In f F ->
     exists g, In g G /\ row g = row f /\ col g = col f /\
               if Qeq_bool (wt g) 0 then wt f = 0 else wt f = wt g) /\
  (forall e, In e G -> wt e == 0 ->
     joined (filter zero_weight F) (row e) (col e)) /\
  (forall e, In e G -> wt e == 0 -> row e <> col e ->
     apart_from_others G (row e) (col e) = true ->
     exists f, In f F /\ between (row e) (col e) f = true /\ wt f = 0).
Proof.
  intros Hzf Hshape Hnn F. destruct (zero_fix_spec G zf Hzf) as [Hpos Hbelow].
  assert (Htrip : forall f, In f F ->
            exists g, In g G /\ row g = row f /\ col g = col f /\
                      if Qeq_bool (wt g) 0 then wt f = 0 else wt f = wt g).
  { intros f Hf. unfold F in Hf. apply restore_In in Hf as (s & Hs & ->).
    unfold minimum_spanning_tree, eliminate_zeros in Hs.
    apply filter_In in Hs as [Hs Hnz]. apply negb_true_iff in Hnz.
    destruct (Forall2_In_r _ _ _ _ (kruskal_loop_shape _ _ _) Hs) as (s' & Hs' & [->| ->]);
      [|simpl in Hnz; discriminate].
    apply sanitize_In in Hs' as (g & Hg & ->).
    exists g. split; [exact Hg|].
    destruct (Qeq_bool (wt g) 0) eqn:E0; simpl.
    - replace (Qeq_bool zf zf) with true
        by (symmetry; apply Qeq_bool_iff; reflexivity).
      simpl. auto.
    - replace (Qeq_bool (wt g) zf) with false; [auto|].
      symmetry. apply not_true_iff_false. intros E. apply Qeq_bool_iff in E.
      destruct (Qlt_le_dec 0 (wt g)) as [Hp|Hn].
      + specialize (Hbelow g Hg Hp). lra.
      + lra. }
  assert (Hjoin : forall e, In e G -> wt e == 0 ->
            joined (filter zero_weight F) (row e) (col e)).
  { intros e He Hw. apply zero_entry_joined; assumption. }
  split; [split; assumption|]. split; [|split; [exact Htrip | split; [exact Hjoin|]]].
  - intros e He Hw. apply sanitize_In. exists e.
    split; [exact He|]. apply Qeq_bool_iff in Hw. rewrite Hw. reflexivity.
  - intros e He Hw Hne Hapart.
    destruct (joined_touch _ _ _ (Hjoin e He Hw)) as [E|[(f & Hf & Hinc) _]];
      [contradiction|].
    apply filter_In in Hf as [Hf Hz]. unfold zero_weight in Hz.
    destruct (Htrip f Hf) as (g & Hg & Hr & Hc & Hwg).
    unfold apart_from_others in Hapart. rewrite forallb_forall in Hapart.
    specialize (Hapart g Hg).
    assert (Hg0 : Qeq_bool (wt g) 0 = true).
    { destruct (Qeq_bool (wt g) 0) eqn:E; [reflexivity|].
      rewrite <- Hwg in E. congruence. }
    rewrite Hg0 in Hwg, Hapart.
    assert (Hincg : incident (row e) g = true)
      by (unfold incident in *; rewrite Hr, Hc; exact Hinc).
    rewrite Hincg in Hapart. cbn in Hapart.
    exists f. split; [exact Hf|]. split; [|exact Hwg].
    unfold between in *. rewrite <- Hr, <- Hc. exact Hapart.
Qed.

Lemma zero_fix_round_trip_witness :
  kneighbors_graph euclidean_line 1 two_pairs = Ok two_pairs_graph /\
  (exists f,
     In f (restore (1 # 100000000)
             (minimum_spanning_tree 6 (sanitize (1 # 100000000) two_pairs_graph))) /\
     between 0 1 f = true /\ wt f = 0) /\
  (exists f,
     In f (restore (1 # 100000000)
             (minimum_spanning_tree 6 (sanitize (1 # 100000000) two_pairs_graph))) /\
     between 2 3 f = true /\ wt f = 0).
Proof.
  split; [reflexivity|].
  pose proof (proj2 (proj2 (proj2 (proj2
                (zero_fix_round_trip two_pairs_graph (1 # 100000000) 6
                   eq_refl eq_refl eq_refl))))) as H.
  split.
  - apply (H (mkEntry 0 1 0)).
    + left. reflexivity.
    + reflexivity.
    + discriminate.
    + reflexivity.
  - apply (H (mkEntry 2 3 0)).
    + right. right. left. reflexivity.
    + reflexivity.
    + discriminate.
    + reflexivity.
Defined.

(** C4 as stated fails.  Of the points 0, 0, 0, 1 with three neighbours per
    point, points 1 and 2 coincide and each is among the neighbours of the
    other; the sanitized graph stores the edge in both orientations, with
    weight [zero_fix], but the forest joins the three coincident points by
    the edges (0,1) and (0,2) and stores no edge between 1 and 2. *)
Lemma coincident_edge_dropped :
  exists G0 o,
    kneighbors_graph euclidean_line 3 triple = Ok G0 /\
    In (mkEntry 1 2 0) G0 /\ In (mkEntry 2 1 0) G0 /\
    pershout euclidean_line 3 triple = Ok o /\
    In (mkEntry 1 2 (out_zero_fix o)) (out_G o) /\
    In (mkEntry 2 1 (out_zero_fix o)) (out_G o) /\
    out_MST o = [mkEntry 0 1 0; mkEntry 0 2 0; mkEntry 0 3 1] /\
    existsb (fun f => incident 1 f && incident 2 f) (out_MST o) = false.
Proof.
  eexists. eexists. split; [vm_compute; reflexivity|].
  split; [simpl; tauto|]. split; [simpl; tauto|].
  split; [vm_compute; reflexivity|]. simpl.
  split; [tauto|]. split; [tauto|]. split; reflexivity.
Qed.

(** C5.  The sanitizer fails, with DegenerateGraph, exactly when the
    neighbour graph stores no strictly positive weight; it does not fail on
    the neighbour graph of a point set with one duplicate pair among
    otherwise distinct points. *)
Theorem sanitizer_fails_iff :
  (forall G, zero_fix G = Err DegenerateGraph <-> (forall e, In e G -> ~ 0 < wt e)) /\
  (forall metric k data a b G,
     (3 <= length data)%nat -> one_duplicate_pair metric data a b = true ->
     kneighbors_graph metric k data = Ok G ->
     exists zf, zero_fix G = Ok zf /\ 0 < zf).
Proof.
  split.
  - intros G. rewrite zero_fix_Err_iff. apply positive_nil_iff.
  - intros metric k data a b G HN Hdup HG.
    destruct (one_duplicate_pair_apart metric data a b HN Hdup) as (c & Hc & Hpos).
    destruct (kneighbors_graph_row metric k data G c HG Hc)
      as (e & He & _ & Hne & Hlt & Hw).
    unfold zero_fix.
    destruct (min_list (positive (data_of G))) as [m|] eqn:E.
    + exists (m * (1 # 100000000)). split; [reflexivity|].
      apply min_list_spec in E as [Hin _]. apply positive_In in Hin as [_ Hm]. lra.
    + exfalso. apply min_list_None in E.
      apply (proj1 (positive_nil_iff G) E e He). rewrite Hw. apply Hpos; auto.
Qed.

Lemma sanitizer_fails_iff_witness :
  exists zf, zero_fix (flat_map (kneighbors euclidean_line 2 one_pair) (seq 0 4)) = Ok zf /\ 0 < zf.
Proof.
  apply (proj2 sanitizer_fails_iff euclidean_line 2%Z one_pair 0%nat 1%nat).
  - simpl. lia.
  - reflexivity.
  - reflexivity.
Defined.

(** C6 (amended).  The normalizer fails, with the error of the empty
    minimum, exactly when the forest stores no strictly positive weight.
    When [lmin] equals [lmax] nothing fails: line 32 divides by
    [lmax - lmin = 0] and every score is [nan] or an infinity. *)
Theorem normalizer_range M :
  (lmin M = Err DegenerateRange <-> (forall e, In e M -> ~ 0 < wt e)) /\
  (forall lo, lmin M = Ok lo -> exists hi, lmax M = Ok hi /\ lo <= hi) /\
  (forall lo hi raw, lmin M = Ok lo -> lmax M = Ok hi -> lo == hi ->
     Forall (fun s => is_finite s = false) (normalize lo hi raw)).
Proof.
  split; [|split].
  - rewrite lmin_Err_iff. apply positive_nil_iff.
  - intros lo Hlo. unfold lmax.
    destruct (max_list (positive (data_of M))) as [hi|] eqn:E.
    + exists hi. split; [reflexivity|].
      apply lmin_spec in Hlo as (Hpos & (e & He & <-) & _).
      apply max_list_spec in E as [_ Hge]. apply Hge, positive_In.
      split; [apply in_map; exact He | exact Hpos].
    + apply max_list_None in E. apply lmin_Err_iff in E. congruence.
  - intros lo hi raw _ _ Heq. unfold normalize. apply Forall_map, Forall_forall.
    intros x _. apply fdiv_zero. lra.
Qed.

Lemma normalizer_range_witness :
  Forall (fun s => is_finite s = false) (normalize 1 1 [1; 1; 0]).
Proof.
  apply (proj2 (proj2 (normalizer_range equidistant_forest)) 1 1 [1; 1; 0]).
  - reflexivity.
  - reflexivity.
  - reflexivity.
Defined.

(** C6 as stated fails.  For three equidistant points [lmin = lmax = 1];
    the script raises nothing and divides by zero: the scores are
    [nan, nan, -inf]. *)
Lemma zero_range_not_rejected :
  exists o, pershout euclidean_line 2 equidistant = Ok o /\
    out_MST o = equidistant_forest /\
    out_lmin o = 1 /\ out_lmax o = 1 /\
    out_persist o = [NaN; NaN; NInf].
Proof.
  eexists. split; [vm_compute; reflexivity|]. repeat split.
Qed.

(** C7 on the script.  No ordering is emitted.  A run that gets through
    line 32 raises at line 33, where [np.where] returns a tuple and a tuple
    has no [shape]; line 34 does not bind [idx] and line 36 prints nothing.
    A run that stops earlier emits nothing either. *)
Theorem reporter_not_reached :
  (forall metric k data,
     match pershout metric k data with
     | Ok _ => script metric k data = Err AttributeError
     | Err e => script metric k data = Err e
     end) /\
  script euclidean_line 3 colinear = Err AttributeError.
Proof.
  split; [|vm_compute; reflexivity].
  intros metric k data. rewrite script_cases.
  destruct (pershout metric k data); reflexivity.
Qed.

(** C8.  The neighbour graph builder fails with InvalidParameter whenever
    [k < 1] or [k >= N]; the script stops there, with no graph and no later
    stage. *)
Theorem invalid_neighbor_count metric k data :
  (k < 1 \/ Z.of_nat (length data) <= k)%Z ->
  kneighbors_graph metric k data = Err InvalidParameter /\
  pershout metric k data = Err InvalidParameter.
Proof.
  intros H.
  assert (E : kneighbors_graph metric k data = Err InvalidParameter).
  { unfold kneighbors_graph.
    destruct (k <? 1)%Z eqn:E1; [reflexivity|].
    destruct (Z.of_nat (length data) <=? k)%Z eqn:E2; [reflexivity|].
    apply Z.ltb_ge in E1. apply Z.leb_gt in E2. lia. }
  split; [exact E|]. unfold pershout. rewrite E. reflexivity.
Qed.

Lemma invalid_neighbor_count_witness :
  kneighbors_graph euclidean_line 4 colinear = Err InvalidParameter /\
  pershout euclidean_line 4 colinear = Err InvalidParameter.
Proof.
  apply (invalid_neighbor_count euclidean_line 4 colinear).
  right. simpl. lia.
Defined.

(** C10 fails on the script.  For the points 0, 5, 5 with two neighbours per
    point the forest keeps the edge between the coincident points in row 1
    and line 22 stores it with weight 0: row 1 has [degree[1] = 1] and no
    strictly positive entry, and the minimum of line 30 is taken over an
    empty selection. *)
Theorem zero_only_row_raises :
  (exists G zf,
     kneighbors_graph euclidean_line 2 late_pair = Ok G /\
     zero_fix G = Ok zf /\
     restore zf (minimum_spanning_tree 3 (sanitize zf G)) = late_pair_forest) /\
  degree late_pair_forest 1 = 1%nat /\
  positive (data_of (getrow late_pair_forest 1)) = [] /\
  persist_at late_pair_forest 1 = Err EmptyRowMinimum /\
  pershout euclidean_line 2 late_pair = Err EmptyRowMinimum.
Proof.
  split.
  - eexists. eexists. split; [vm_compute; reflexivity|].
    split; [vm_compute; reflexivity|]. vm_compute. reflexivity.
  - repeat split.
Qed.

(** * Further properties of the script *)

(** ** Lines 16-17 and 22: the substitution and its inverse *)

(** X1.  After line 17 no stored weight is 0, so that nothing the graph
    stores is dropped as absent: every entry keeps its position, row and
    column, a stored zero holds [zero_fix] and every other entry is
    untouched. *)
Theorem sanitize_no_stored_zero G zf :
  zero_fix G = Ok zf ->
  eliminate_zeros (sanitize zf G) = sanitize zf G /\
  length (sanitize zf G) = length G /\
  forall j e, nth_error G j = Some e ->
    exists e', nth_error (sanitize zf G) j = Some e' /\
      row e' = row e /\ col e' = col e /\ ~ wt e' == 0 /\
      (wt e == 0 -> wt e' = zf) /\ (~ wt e == 0 -> e' = e).
Proof.
  intros Hzf. destruct (zero_fix_spec G zf Hzf) as [Hpos _].
  assert (Hnz : forall e, In e (sanitize zf G) -> Qeq_bool (wt e) 0 = false).
  { intros e He. unfold sanitize in He. apply in_map_iff in He as (g & <- & _).
    destruct (Qeq_bool (wt g) 0) eqn:E; [|exact E].
    simpl. apply not_true_iff_false. intros E'. apply Qeq_bool_iff in E'. lra. }
  split; [|split].
  - unfold eliminate_zeros. apply forallb_filter_id. apply forallb_forall.
    intros e He. rewrite (Hnz e He). reflexivity.
  - unfold sanitize. apply length_map.
  - intros j e Hj. rewrite (sanitize_nth zf G j e Hj).
    eexists. split; [reflexivity|].
    assert (Hin : In (if Qeq_bool (wt e) 0 then set_wt e zf else e) (sanitize zf G)).
    { unfold sanitize. apply in_map_iff. exists e. split; [reflexivity|].
      eapply nth_error_In; exact Hj. }
    apply Hnz in Hin.
    destruct (Qeq_bool (wt e) 0) eqn:E; simpl in *.
    + repeat split; auto.
      * intros H0. apply Qeq_bool_iff in H0. congruence.
      * intros Hne. apply Qeq_bool_iff in E. contradiction.
    + repeat split; auto.
      * intros H0. apply Qeq_bool_iff in H0. congruence.
      * intros H0. apply Qeq_bool_iff in H0. congruence.
Qed.

Lemma sanitize_no_stored_zero_witness :
  eliminate_zeros (sanitize (1 # 100000000) one_pair_graph)
  = sanitize (1 # 100000000) one_pair_graph.
Proof.
  apply (proj1 (sanitize_no_stored_zero one_pair_graph (1 # 100000000) eq_refl)).
Defined.

(** X2.  Line 22 undoes line 17 on the whole graph: [restore] after
    [sanitize] gives back the entries the graph stored, each with its row,
    column and weight, in the canonical order (by row, then column) in
    which the comparison of line 22 leaves a matrix. *)
Theorem restore_sanitize G zf :
  zero_fix G = Ok zf ->
  Forall2 (fun e f => row f = row e /\ col f = col e /\ wt f == wt e)
          (sort_indices G) (restore zf (sanitize zf G)).
Proof.
  intros Hzf. destruct (zero_fix_spec G zf Hzf) as [Hpos Hbelow].
  set (s := fun e => if Qeq_bool (wt e) 0 then set_wt e zf else e).
  set (r := fun e => if Qeq_bool (wt e) zf then set_wt e 0 else e).
  assert (Hs : forall x y, pos_leb (s x) (s y) = pos_leb x y).
  { intros x y. unfold s.
    destruct (Qeq_bool (wt x) 0), (Qeq_bool (wt y) 0); reflexivity. }
  assert (Heq : restore zf (sanitize zf G) = map r (map s (sort_indices G))).
  { unfold restore, sanitize, sort_indices. fold s. fold r.
    rewrite (isort_map pos_leb s G Hs). reflexivity. }
  rewrite Heq.
  assert (Hpt : forall e, In e G ->
            row (r (s e)) = row e /\ col (r (s e)) = col e /\ wt (r (s e)) == wt e).
  { intros e He. unfold r, s. destruct (Qeq_bool (wt e) 0) eqn:E0; simpl.
    - replace (Qeq_bool zf zf) with true
        by (symmetry; apply Qeq_bool_iff; reflexivity).
      simpl. apply Qeq_bool_iff in E0. repeat split. symmetry. exact E0.
    - replace (Qeq_bool (wt e) zf) with false; [repeat split; reflexivity|].
      symmetry. apply not_true_iff_false. intros E. apply Qeq_bool_iff in E.
      destruct (Qlt_le_dec 0 (wt e)) as [Hp|Hn].
      + specialize (Hbelow e He Hp). lra.
      + lra. }
  assert (Hincl : incl (sort_indices G) G).
  { intros e He. apply (Permutation_in _ (isort_perm pos_leb G)). exact He. }
  revert Hincl. generalize (sort_indices G) as L.
  induction L as [|e L IH]; intros Hincl; cbn [map]; constructor.
  - apply Hpt, Hincl. left. reflexivity.
  - apply IH. intros x Hx. apply Hincl. right. exact Hx.
Qed.

Lemma restore_sanitize_witness :
  kneighbors_graph euclidean_line 2 far_pair = Ok far_pair_graph_2 /\
  Forall2 (fun e f => row f = row e /\ col f = col e /\ wt f == wt e)
          (sort_indices far_pair_graph_2)
          (restore (1 # 100000000) (sanitize (1 # 100000000) far_pair_graph_2)).
Proof.
  split; [reflexivity|].
  apply (restore_sanitize far_pair_graph_2 (1 # 100000000)). reflexivity.
Defined.

(** ** Lines 24-25: the bounds *)

(** X3.  [lmin] and [lmax] fail together; when defined they are stored
    weights of the forest, [0 < lmin <= lmax], and every strictly positive
    stored weight lies between them. *)
Theorem forest_weight_bounds M :
  (lmin M = Err DegenerateRange <-> lmax M = Err DegenerateRange) /\
  forall lo hi, lmin M = Ok lo -> lmax M = Ok hi ->
    0 < lo /\ lo <= hi /\
    (exists e, In e M /\ wt e = lo) /\ (exists e, In e M /\ wt e = hi) /\
    forall e, In e M -> 0 < wt e -> lo <= wt e <= hi.
Proof.
  split.
  - rewrite lmin_Err_iff. unfold lmax.
    destruct (max_list (positive (data_of M))) eqn:E.
    + split; [|discriminate]. intros H. rewrite H in E. discriminate.
    + apply max_list_None in E. tauto.
  - intros lo hi Hlo Hhi.
    apply lmin_spec in Hlo as (Hpos & (e & He & Hwe) & Hlo).
    apply lmax_spec in Hhi as (_ & Hex & Hhi).
    split; [exact Hpos|]. split.
    { rewrite <- Hwe. apply Hhi; [exact He | rewrite Hwe; exact Hpos]. }
    split; [eauto|]. split; [exact Hex|].
    intros f Hf Hpf. split; [apply Hlo | apply Hhi]; assumption.
Qed.

Lemma forest_weight_bounds_witness :
  0 < 1 /\ 1 <= 8 /\
  (exists e, In e colinear_forest /\ wt e = 1) /\
  (exists e, In e colinear_forest /\ wt e = 8) /\
  forall e, In e colinear_forest -> 0 < wt e -> 1 <= wt e <= 8.
Proof.
  apply (proj2 (forest_weight_bounds colinear_forest) 1 8).
  - reflexivity.
  - reflexivity.
Defined.

(** ** Lines 26-30: the loop *)

(** X4.  The loop raises exactly when some row below [N] stores an entry
    and no strictly positive one; it raises nothing else. *)
Theorem scorer_fails_iff M N :
  (persist_raw M N = Err EmptyRowMinimum <->
   exists i, (i < N)%nat /\ (0 < getnnz M i)%nat /\
             forall e, In e M -> row e = i -> ~ 0 < wt e) /\
  (forall e, persist_raw M N = Err e -> e = EmptyRowMinimum).
Proof.
  assert (Herr : forall e, persist_raw M N = Err e ->
            e = EmptyRowMinimum /\
            exists i, (i < N)%nat /\ (0 < getnnz M i)%nat /\
                      forall f, In f M -> row f = i -> ~ 0 < wt f).
  { intros e H. apply mapM_Err in H as (i & Hi & Hp). apply in_seq in Hi.
    destruct (persist_at_cases M i) as [[_ H0]|[Hd [[x Hx]|[He Hrow]]]];
      try congruence.
    split; [congruence|]. exists i. repeat split; auto. lia. }
  split; [split|].
  - intros H. apply Herr in H. tauto.
  - intros (i & Hi & Hd & Hrow).
    destruct (persist_raw M N) as [raw|e] eqn:E.
    + exfalso. destruct (persist_raw_at M N raw i E Hi) as (x & _ & Hx).
      destruct (persist_at_stored M i x Hx Hd) as (f & Hf & Hr & Hw & Hpos & _).
      apply (Hrow f Hf Hr). rewrite Hw. exact Hpos.
    + destruct (Herr e eq_refl) as [-> _]. reflexivity.
  - intros e H. apply Herr in H. tauto.
Qed.

Lemma scorer_fails_iff_witness :
  persist_raw late_pair_forest 3 = Err EmptyRowMinimum.
Proof.
  apply (proj2 (proj1 (scorer_fails_iff late_pair_forest 3))).
  exists 1%nat. split; [lia|]. split; [vm_compute; lia|].
  intros e [<-|[<-|[]]]; simpl; intros Hr Hpos;
    [discriminate | apply (Qlt_irrefl 0); exact Hpos].
Defined.

(** X5.  When the loop ends, [persist] has one value per vertex: 0 for a
    row without stored entries and, for any other row, a strictly positive
    weight stored in that row, not above any other one, between [lmin] and
    [lmax]. *)
Theorem raw_persistence_values M N lo hi raw :
  lmin M = Ok lo -> lmax M = Ok hi -> persist_raw M N = Ok raw ->
  length raw = N /\
  forall i, (i < N)%nat ->
    exists x, nth_error raw i = Some x /\
      ((getnnz M i = 0%nat /\ x = 0) \/
       ((0 < getnnz M i)%nat /\ lo <= x <= hi /\
        (exists e, In e M /\ row e = i /\ wt e = x) /\
        forall f, In f M -> row f = i -> 0 < wt f -> x <= wt f)).
Proof.
  intros Hlo Hhi Hraw. split.
  - apply mapM_Ok in Hraw as [Hlen _]. rewrite Hlen. apply length_seq.
  - intros i Hi. destruct (persist_raw_at M N raw i Hraw Hi) as (x & Hx & Hp).
    exists x. split; [exact Hx|].
    destruct (getnnz M i) as [|n] eqn:En.
    + left. split; [reflexivity|].
      rewrite (persist_at_empty_row M i En) in Hp. congruence.
    + right. split; [lia|].
      destruct (persist_at_stored M i x Hp) as (e & He & Hr & Hw & Hpos & Hle);
        [rewrite En; lia|].
      apply lmin_spec in Hlo as (_ & _ & Hlo). apply lmax_spec in Hhi as (_ & _ & Hhi).
      repeat split; eauto.
      * rewrite <- Hw. apply Hlo; [exact He | rewrite Hw; exact Hpos].
      * rewrite <- Hw. apply Hhi; [exact He | rewrite Hw; exact Hpos].
Qed.

Lemma raw_persistence_values_witness :
  length [1; 1; 8; 0] = 4%nat /\
  forall i, (i < 4)%nat ->
    exists x, nth_error [1; 1; 8; 0] i = Some x /\
      ((getnnz colinear_forest i = 0%nat /\ x = 0) \/
       ((0 < getnnz colinear_forest i)%nat /\ 1 <= x <= 8 /\
        (exists e, In e colinear_forest /\ row e = i /\ wt e = x) /\
        forall f, In f colinear_forest -> row f = i -> 0 < wt f -> x <= wt f)).
Proof.
  apply (raw_persistence_values colinear_forest 4 1 8 [1; 1; 8; 0]).
  - reflexivity.
  - reflexivity.
  - reflexivity.
Defined.

(** ** Lines 32-33: the scores *)

(** X6.  When [lmin < lmax], the scores below 0 that line 33 selects are
    exactly the vertices the loop skipped, those whose row stores no
    entry. *)
Theorem negative_iff_empty_row M N lo hi raw :
  lmin M = Ok lo -> lmax M = Ok hi -> lo < hi -> persist_raw M N = Ok raw ->
  forall i, (i < N)%nat ->
    exists s, nth_error (normalize lo hi raw) i = Some s /\
              (score_neg s = true <-> getnnz M i = 0%nat).
Proof.
  intros Hlo Hhi Hlt Hraw i Hi.
  destruct (persist_raw_at M N raw i Hraw Hi) as (x & Hx & Hp).
  exists (Fin ((x - lo) / (hi - lo))). split.
  - rewrite (normalize_nth _ _ _ _ _ Hx). f_equal. apply fdiv_finite. lra.
  - apply lmin_spec in Hlo as (Hlo0 & _ & Hlo). apply lmax_spec in Hhi as (_ & _ & Hhi).
    simpl. rewrite Qltb_lt. destruct (getnnz M i) as [|n] eqn:En.
    + rewrite (persist_at_empty_row M i En) in Hp. injection Hp as <-.
      split; [reflexivity|]. intros _. apply below_zero; assumption.
    + split; [|discriminate]. intros Hneg. exfalso.
      destruct (persist_at_stored M i x Hp) as (e & He & _ & Hw & Hpos & _);
        [rewrite En; lia|].
      assert (0 <= (x - lo) / (hi - lo) <= 1).
      { apply unit_interval; [exact Hlt | |]; rewrite <- Hw.
        - apply Hlo; [exact He | rewrite Hw; exact Hpos].
        - apply Hhi; [exact He | rewrite Hw; exact Hpos]. }
      lra.
Qed.

Lemma negative_iff_empty_row_witness :
  exists s, nth_error (normalize 1 8 [1; 1; 8; 0]) 3 = Some s /\
            (score_neg s = true <-> getnnz colinear_forest 3 = 0%nat).
Proof.
  apply (negative_iff_empty_row colinear_forest 4 1 8 [1; 1; 8; 0]).
  - reflexivity.
  - reflexivity.
  - reflexivity.
  - reflexivity.
  - lia.
Defined.

(** X7.  When [lmin < lmax], line 32 never inverts two values: of two
    entries of [persist], the one that is not above the other before the
    normalisation is not above it after. *)
Theorem normalize_keeps_order lo hi raw :
  lo < hi ->
  forall i j x y, nth_error raw i = Some x -> nth_error raw j = Some y -> x <= y ->
    exists s t, nth_error (normalize lo hi raw) i = Some s /\
                nth_error (normalize lo hi raw) j = Some t /\
                score_leb s t = true.
Proof.
  intros Hlt i j x y Hx Hy Hxy.
  exists (fdiv (x - lo) (hi - lo)), (fdiv (y - lo) (hi - lo)).
  split; [apply normalize_nth; exact Hx|].
  split; [apply normalize_nth; exact Hy|].
  apply (fdiv_mono lo hi x y Hlt). exact Hxy.
Qed.

Lemma normalize_keeps_order_witness :
  exists s t, nth_error (normalize 1 8 [1; 1; 8; 0]) 3 = Some s /\
              nth_error (normalize 1 8 [1; 1; 8; 0]) 2 = Some t /\
              score_leb s t = true.
Proof.
  apply (normalize_keeps_order 1 8 [1; 1; 8; 0] eq_refl 3 2 0 8).
  - reflexivity.
  - reflexivity.
  - discriminate.
Defined.

(** X8.  When [lmin < lmax] and the forest is an [N] x [N] matrix, the row
    that stores a weight equal to [lmin] gets the score 0: the lowest score
    of a connected row is always attained. *)
Theorem zero_score_attained M N lo hi raw :
  in_shape N M = true ->
  lmin M = Ok lo -> lmax M = Ok hi -> lo < hi -> persist_raw M N = Ok raw ->
  exists i q, (i < N)%nat /\ (0 < getnnz M i)%nat /\
    nth_error (normalize lo hi raw) i = Some (Fin q) /\ q == 0.
Proof.
  intros Hshape Hlo Hhi Hlt Hraw.
  destruct (lmin_spec M lo Hlo) as (Hpos & (e & He & Hwe) & Hmin).
  assert (Hi : (row e < N)%nat).
  { unfold in_shape in Hshape. rewrite forallb_forall in Hshape.
    specialize (Hshape e He). apply andb_true_iff in Hshape as [H _].
    apply Nat.ltb_lt. exact H. }
  assert (Hd : (0 < getnnz M (row e))%nat).
  { unfold getnnz. destruct (getrow M (row e)) eqn:E; [|simpl; lia].
    assert (In e (getrow M (row e))) by (apply getrow_In; auto).
    rewrite E in H. destruct H. }
  destruct (persist_raw_at M N raw (row e) Hraw Hi) as (x & Hx & Hp).
  destruct (persist_at_stored M (row e) x Hp Hd) as (f & Hf & _ & Hwf & Hxpos & Hle).
  exists (row e), ((x - lo) / (hi - lo)). repeat split; auto.
  - rewrite (normalize_nth _ _ _ _ _ Hx). f_equal. apply fdiv_finite. lra.
  - assert (x <= lo) by (rewrite <- Hwe; apply Hle; [exact He | reflexivity | rewrite Hwe; exact Hpos]).
    assert (lo <= x) by (rewrite <- Hwf; apply Hmin; [exact Hf | rewrite Hwf; exact Hxpos]).
    assert (Hx0 : x - lo == 0) by lra.
    rewrite Hx0. unfold Qdiv. apply Qmult_0_l.
Qed.

Lemma zero_score_attained_witness :
  exists i q, (i < 4)%nat /\ (0 < getnnz colinear_forest i)%nat /\
    nth_error (normalize 1 8 [1; 1; 8; 0]) i = Some (Fin q) /\ q == 0.
Proof.
  apply (zero_score_attained colinear_forest 4 1 8 [1; 1; 8; 0]).
  - reflexivity.
  - reflexivity.
  - reflexivity.
  - reflexivity.
  - reflexivity.
Defined.

(** X9.  The bounds and the loop read the forest as a collection of stored
    entries: storing the same entries in another order gives the same
    [lmin], [lmax] and [persist[i]], or the same exception. *)
Theorem scorer_storage_order M M' i :
  Permutation M M' ->
  res_eq (lmin M) (lmin M') /\ res_eq (lmax M) (lmax M') /\
  res_eq (persist_at M i) (persist_at M' i).
Proof.
  intros Hp.
  assert (Hpos : forall f, Permutation (positive (data_of (filter f M)))
                                       (positive (data_of (filter f M')))).
  { intros f. apply filter_perm, Permutation_map, filter_perm, Hp. }
  assert (Hall : Permutation (positive (data_of M)) (positive (data_of M'))).
  { apply filter_perm, Permutation_map, Hp. }
  split; [|split].
  - unfold lmin. pose proof (min_list_perm _ _ Hall) as H.
    destruct (min_list (positive (data_of M))), (min_list (positive (data_of M')));
      simpl; tauto.
  - unfold lmax. pose proof (max_list_perm _ _ Hall) as H.
    destruct (max_list (positive (data_of M))), (max_list (positive (data_of M')));
      simpl; tauto.
  - unfold persist_at, degree, getnnz, getrow.
    rewrite (Permutation_length (filter_perm (fun e => Nat.eqb (row e) i) _ _ Hp)).
    destruct (Nat.ltb 0 (length (filter (fun e => Nat.eqb (row e) i) M'))); simpl;
      [|reflexivity].
    pose proof (min_list_perm _ _ (Hpos (fun e => Nat.eqb (row e) i))) as H.
    destruct (min_list (positive (data_of (filter (fun e => Nat.eqb (row e) i) M)))),
             (min_list (positive (data_of (filter (fun e => Nat.eqb (row e) i) M'))));
      simpl; tauto.
Qed.

Lemma scorer_storage_order_witness :
  res_eq (lmin colinear_forest) (lmin (rev colinear_forest)) /\
  res_eq (lmax colinear_forest) (lmax (rev colinear_forest)) /\
  res_eq (persist_at colinear_forest 2) (persist_at (rev colinear_forest) 2).
Proof.
  apply (scorer_storage_order colinear_forest (rev colinear_forest) 2).
  apply Permutation_rev.
Defined.

(** ** The whole run *)

(** X10.  A run that gets through line 32 always leaves one vertex out:
    the forest stores at most [N - 1] entries, so some row is empty, its
    vertex keeps the raw persistence 0 and, when [lmin < lmax], gets a
    negative score. *)
Theorem some_vertex_skipped metric k data o :
  pershout metric k data = Ok o ->
  (length (out_MST o) <= length data - 1)%nat /\
  exists i, (i < length data)%nat /\ degree (out_MST o) i = 0%nat /\
    nth_error (out_raw o) i = Some 0 /\
    (out_lmin o < out_lmax o ->
     exists q, nth_error (out_persist o) i = Some (Fin q) /\ q < 0).
Proof.
  intros H. apply pershout_Ok in H as (G0 & zf & lo & hi & raw & HG & Hzf & H).
  cbv zeta in H. destruct H as (Hlo & Hhi & Hraw & ->).
  cbn [out_MST out_raw out_lmin out_lmax out_persist].
  set (T := minimum_spanning_tree (length data) (sanitize zf G0)) in *.
  assert (HN : (2 <= length data)%nat)
    by (apply kneighbors_graph_Ok in HG as [Hk _]; lia).
  destruct (minimum_spanning_tree_size (length data) (sanitize zf G0)) as [Hsize Hshape].
  { rewrite sanitize_shape. eapply kneighbors_graph_shape; exact HG. }
  fold T in Hsize, Hshape.
  assert (Hlen : length (restore zf T) = length T) by apply restore_length.
  split; [rewrite Hlen; exact Hsize|].
  destruct (empty_row_exists (length data) (restore zf T)) as (i & Hi & H0).
  - lia.
  - rewrite Hlen. exact Hsize.
  - intros e He. apply restore_row in He as (g & Hg & -> & _).
    apply (in_shape_In _ _ _ Hshape Hg).
  - exists i. split; [exact Hi|]. split; [exact H0|].
    destruct (persist_raw_at _ _ raw i Hraw Hi) as (x & Hx & Hp).
    rewrite (persist_at_empty_row _ i H0) in Hp. injection Hp as <-.
    split; [exact Hx|]. intros Hlt.
    exists ((0 - lo) / (hi - lo)). split.
    + rewrite (normalize_nth _ _ _ _ _ Hx). f_equal. apply fdiv_finite. lra.
    + apply below_zero; [|exact Hlt]. apply lmin_spec in Hlo. tauto.
Qed.

Lemma some_vertex_skipped_witness :
  exists o, pershout euclidean_line 3 colinear = Ok o /\
    exists i, (i < 4)%nat /\ degree (out_MST o) i = 0%nat /\
      nth_error (out_raw o) i = Some 0.
Proof.
  eexists. split; [vm_compute; reflexivity|].
  destruct (proj2 (some_vertex_skipped euclidean_line 3 colinear _ eq_refl))
    as (i & Hi & Hd & Hr & _).
  exists i. auto.
Defined.

(** X11.  No run ends normally, and the line that raises is told by the
    input: line 13 for a rejected neighbour count, line 16 for a neighbour
    graph without a positive weight, line 24 for a forest without a
    positive weight, line 30 for a forest row that stores entries and no
    positive one, and line 33 for every run that gets through line 32. *)
Theorem failure_stage metric k data :
  (forall out, script metric k data <> Ok out) /\
  forall e, script metric k data = Err e ->
  match e with
  | InvalidParameter => (k < 1 \/ Z.of_nat (length data) <= k)%Z
  | DegenerateGraph =>
      exists G0, kneighbors_graph metric k data = Ok G0 /\
                 forall f, In f G0 -> ~ 0 < wt f
  | DegenerateRange =>
      exists G0 zf, kneighbors_graph metric k data = Ok G0 /\ zero_fix G0 = Ok zf /\
        forall f, In f (restore zf (minimum_spanning_tree (length data) (sanitize zf G0))) ->
                  ~ 0 < wt f
  | EmptyRowMinimum =>
      exists G0 zf i, kneighbors_graph metric k data = Ok G0 /\ zero_fix G0 = Ok zf /\
        let F := restore zf (minimum_spanning_tree (length data) (sanitize zf G0)) in
        (i < length data)%nat /\ (0 < getnnz F i)%nat /\
        forall f, In f F -> row f = i -> ~ 0 < wt f
  | AttributeError => exists o, pershout metric k data = Ok o
  end.
Proof.
  rewrite script_cases. split.
  { intros out. destruct (pershout metric k data); discriminate. }
  intros e H. destruct (pershout metric k data) as [o|e1] eqn:Ecore.
  { injection H as <-. eauto. }
  injection H as <-. revert Ecore. unfold pershout. intros H.
  destruct (kneighbors_graph metric k data) as [G0|e0] eqn:EG; cbn [bind] in H.
  2:{ injection H as <-. unfold kneighbors_graph in EG.
      destruct ((k <? 1)%Z || (Z.of_nat (length data) <=? k)%Z) eqn:E; [|discriminate].
      injection EG as <-. apply orb_true_iff in E as [E|E].
      - left. apply Z.ltb_lt. exact E.
      - right. apply Z.leb_le. exact E. }
  destruct (zero_fix G0) as [zf|e0] eqn:Ez; cbn [bind] in H.
  2:{ injection H as <-. unfold zero_fix in Ez.
      destruct (min_list (positive (data_of G0))) eqn:Em; [discriminate|].
      injection Ez as <-. exists G0. split; [reflexivity|].
      apply positive_nil_iff, min_list_None. exact Em. }
  set (F := restore zf (minimum_spanning_tree (length data) (sanitize zf G0))) in *.
  destruct (lmin F) as [lo|e0] eqn:El; cbn [bind] in H.
  2:{ injection H as <-. unfold lmin in El.
      destruct (min_list (positive (data_of F))) eqn:Em; [discriminate|].
      injection El as <-. exists G0, zf. repeat split; auto.
      apply positive_nil_iff, min_list_None. exact Em. }
  destruct (lmax F) as [hi|e0] eqn:Eh; cbn [bind] in H.
  2:{ exfalso. unfold lmax in Eh.
      destruct (max_list (positive (data_of F))) eqn:Em; [discriminate|].
      apply max_list_None, lmin_Err_iff in Em. congruence. }
  destruct (persist_raw F (length data)) as [raw|e0] eqn:Er; cbn [bind] in H;
    [discriminate|].
  injection H as <-. apply mapM_Err in Er as (i & Hi & Hp). apply in_seq in Hi.
  destruct (persist_at_cases F i) as [[_ H0]|[Hd [[x Hx]|[He Hrow]]]];
    try congruence.
  rewrite He in Hp. injection Hp as <-.
  exists G0, zf, i. cbv zeta. repeat split; auto. lia.
Qed.

Lemma failure_stage_witness :
  exists G0 zf i,
    kneighbors_graph euclidean_line 2 late_pair = Ok G0 /\ zero_fix G0 = Ok zf /\
    let F := restore zf (minimum_spanning_tree 3 (sanitize zf G0)) in
    (i < 3)%nat /\ (0 < getnnz F i)%nat /\
    forall f, In f F -> row f = i -> ~ 0 < wt f.
Proof.
  apply (proj2 (failure_stage euclidean_line 2 late_pair) EmptyRowMinimum).
  vm_compute. reflexivity.
Defined.

(** X12.  What the script has bound when it gets to line 33: the neighbour
    count was accepted, [zero_fix] is positive and the sanitized graph
    stores no zero, [0 < lmin <= lmax], and the raw persistence and the
    scores have one value per point. *)
Theorem run_outcome metric k data o :
  pershout metric k data = Ok o ->
  (1 <= k < Z.of_nat (length data))%Z /\
  0 < out_zero_fix o /\
  (forall e, In e (out_G o) -> ~ wt e == 0) /\
  0 < out_lmin o /\ out_lmin o <= out_lmax o /\
  length (out_raw o) = length data /\
  length (out_persist o) = length data.
Proof.
  intros H. apply pershout_Ok in H as (G0 & zf & lo & hi & raw & HG & Hzf & H).
  cbv zeta in H. destruct H as (Hlo & Hhi & Hraw & ->).
  cbn [out_G out_zero_fix out_lmin out_lmax out_raw out_persist].
  destruct (zero_fix_spec G0 zf Hzf) as [Hpos _].
  assert (Hlen : length raw = length data).
  { apply mapM_Ok in Hraw as [Hl _]. rewrite Hl. apply length_seq. }
  split; [apply kneighbors_graph_Ok in HG; tauto|].
  split; [exact Hpos|]. split.
  { intros e He. unfold sanitize in He. apply in_map_iff in He as (g & <- & _).
    destruct (Qeq_bool (wt g) 0) eqn:E; simpl.
    - lra.
    - intros E'. apply Qeq_bool_iff in E'. congruence. }
  split; [apply lmin_spec in Hlo; tauto|]. split.
  { destruct (lmin_spec _ _ Hlo) as (Hp & (e & He & <-) & _).
    apply lmax_spec in Hhi as (_ & _ & Hhi). apply Hhi; assumption. }
  split; [exact Hlen|].
  unfold normalize. rewrite length_map. exact Hlen.
Qed.

Lemma run_outcome_witness :
  exists o, pershout euclidean_line 3 colinear = Ok o /\
            length (out_persist o) = 4%nat.
Proof.
  eexists. split; [vm_compute; reflexivity|].
  apply (run_outcome euclidean_line 3 colinear _ eq_refl).
Defined.

(** X13.  When all strictly positive forest weights are equal
    ([lmin = lmax]), line 32 divides by zero without raising: the score of
    every row that stores an entry is [nan] and the score of every skipped
    vertex is [-inf]. *)
Theorem equal_weights_scores M N lo hi raw :
  lmin M = Ok lo -> lmax M = Ok hi -> lo == hi -> persist_raw M N = Ok raw ->
  forall i, (i < N)%nat ->
    ((0 < getnnz M i)%nat -> nth_error (normalize lo hi raw) i = Some NaN) /\
    (getnnz M i = 0%nat -> nth_error (normalize lo hi raw) i = Some NInf).
Proof.
  intros Hlo Hhi Heq Hraw i Hi.
  destruct (persist_raw_at M N raw i Hraw Hi) as (x & Hx & Hp).
  rewrite (normalize_nth _ _ _ _ _ Hx).
  apply lmin_spec in Hlo as (Hlo0 & _ & Hlo). apply lmax_spec in Hhi as (_ & _ & Hhi).
  assert (Hd0 : Qeq_bool (hi - lo) 0 = true) by (apply Qeq_bool_iff; lra).
  unfold fdiv. rewrite Hd0. split.
  - intros Hd. destruct (persist_at_stored M i x Hp Hd) as (e & He & _ & Hw & Hpos & _).
    assert (lo <= x) by (rewrite <- Hw; apply Hlo; [exact He | rewrite Hw; exact Hpos]).
    assert (x <= hi) by (rewrite <- Hw; apply Hhi; [exact He | rewrite Hw; exact Hpos]).
    replace (Qeq_bool (x - lo) 0) with true; [reflexivity|].
    symmetry. apply Qeq_bool_iff. lra.
  - intros H0. rewrite (persist_at_empty_row M i H0) in Hp. injection Hp as <-.
    replace (Qeq_bool (0 - lo) 0) with false.
    + replace (Qltb 0 (0 - lo)) with false; [reflexivity|].
      symmetry. apply Qltb_ge. lra.
    + symmetry. apply not_true_iff_false. intros E. apply Qeq_bool_iff in E. lra.
Qed.

Lemma equal_weights_scores_witness :
  ((0 < getnnz equidistant_forest 2)%nat ->
   nth_error (normalize 1 1 [1; 1; 0]) 2 = Some NaN) /\
  (getnnz equidistant_forest 2 = 0%nat ->
   nth_error (normalize 1 1 [1; 1; 0]) 2 = Some NInf).
Proof.
  apply (equal_weights_scores equidistant_forest 3 1 1 [1; 1; 0]).
  - reflexivity.
  - reflexivity.
  - reflexivity.
  - reflexivity.
  - lia.
Defined.
